(** * docs/make_chapters.py: line classification, block grouping, rendering

    A shallow embedding of the literate-documentation generator of the
    rust-lv2 book.  Python [str] values are sequences of Unicode code
    points, generators are the lists of the values they yield (with the
    exception that ends them, if any), and [None] is the [None] of
    [option]. *)

From Stdlib Require Import List NArith Bool String Ascii.
Import ListNotations.

Local Open Scope N_scope.
Local Open Scope list_scope.

(** ** Python strings *)

Module Py.

(** A character is a code point; a [str] is a list of them. *)
Definition char := N.
Definition str := list char.

(** A string literal of this file, read one code point per byte (the
    literals below are all ASCII). *)
Definition u (s : string) : str := map N_of_ascii (list_ascii_of_string s).

(** The newline character, and a literal followed by it. *)
Definition NL : char := 10.
Definition ln (s : string) : str := u s ++ [NL].

Fixpoint str_eqb (a b : str) : bool :=
  match a, b with
  | [], [] => true
  | x :: a', y :: b' => N.eqb x y && str_eqb a' b'
  | _, _ => false
  end.

(** [sep.join(parts)] *)
Fixpoint join (sep : str) (parts : list str) : str :=
  match parts with
  | [] => []
  | [p] => p
  | p :: rest => p ++ sep ++ join sep rest
  end.

(** [str.isspace] on one code point, which is what [\s] tests in a
    [str] pattern: the characters of bidirectional type WS, B or S and
    those of category Zs. *)
Definition isspace (c : char) : bool :=
  ((9 <=? c) && (c <=? 13)) || ((28 <=? c) && (c <=? 32))
  || (c =? 133) || (c =? 160) || (c =? 5760)
  || ((8192 <=? c) && (c <=? 8202))
  || (c =? 8232) || (c =? 8233) || (c =? 8239) || (c =? 8287)
  || (c =? 12288).

(** Exceptions the modelled code can raise. *)
Inductive exn :=
| AttributeError   (* attribute access on [None] *)
| IndexError       (* [lines[-1]] on an empty list, [group] of a missing group *)
| OSError.         (* a file that cannot be opened or read *)

Inductive result (A : Type) :=
| Ok (a : A)
| Raise (e : exn).
Arguments Ok {A} a.
Arguments Raise {A} e.

Definition bind {A B} (r : result A) (k : A -> result B) : result B :=
  match r with
  | Ok a => k a
  | Raise e => Raise e
  end.

End Py.

Import Py.

Notation "x <- r ;; k" := (bind r (fun x => k))
  (at level 61, r at next level, right associativity).
Notation "' p <- r ;; k" := (bind r (fun x => match x with p => k end))
  (at level 61, p pattern, r at next level, right associativity).

(** ** The fragment of [re] the program uses

    The three patterns of the program are sequences of single
    characters, character classes, greedy stars of a class and one
    capturing group.  [re.match] anchors at the start of the subject and
    backtracks into the stars, longest repetition first. *)

Module Re.

Inductive cclass :=
| Lit (c : char)   (* the character itself *)
| Space            (* \s *)
| NotNewline       (* [^\n] *)
| Dot.             (* . (without DOTALL) *)

Inductive node :=
| Chr (a : cclass)
| Star (a : cclass)    (* a*, greedy *)
| GroupOpen            (* ( *)
| GroupClose.          (* ) *)

Definition pattern := list node.

Definition accepts (a : cclass) (c : char) : bool :=
  match a with
  | Lit d => N.eqb c d
  | Space => isspace c
  | NotNewline => negb (N.eqb c NL)
  | Dot => negb (N.eqb c NL)
  end.

(** Matcher state: the groups closed so far (in order) and the text of
    the groups that are open (innermost first). *)
Record mstate := { closed : list str; opened : list str }.

Definition push (c : char) (st : mstate) : mstate :=
  {| closed := closed st; opened := map (fun g => g ++ [c]) (opened st) |}.

Definition open_group (st : mstate) : mstate :=
  {| closed := closed st; opened := [] :: opened st |}.

Definition close_group (st : mstate) : mstate :=
  match opened st with
  | g :: gs => {| closed := closed st ++ [g]; opened := gs |}
  | [] => st
  end.

(** Greedy star with backtracking: take one more character if the class
    accepts it and the rest of the pattern then matches, else stop here. *)
Fixpoint star (a : cclass) (k : str -> mstate -> option mstate)
         (s : str) (st : mstate) : option mstate :=
  match s with
  | c :: s' =>
      if accepts a c then
        match star a k s' (push c st) with
        | Some r => Some r
        | None => k s st
        end
      else k s st
  | [] => k s st
  end.

Fixpoint exec (p : pattern) : str -> mstate -> option mstate :=
  match p with
  | [] => fun _ st => Some st
  | Chr a :: p' => fun s st =>
      match s with
      | c :: s' => if accepts a c then exec p' s' (push c st) else None
      | [] => None
      end
  | Star a :: p' => star a (exec p')
  | GroupOpen :: p' => fun s st => exec p' s (open_group st)
  | GroupClose :: p' => fun s st => exec p' s (close_group st)
  end.

(** A match object: the text of its groups 1, 2, ... *)
Record Match := { groups : list str }.

(** [re.match(p, s)]: a match object, or [None]. *)
Definition re_match (p : pattern) (s : str) : option Match :=
  match exec p s {| closed := []; opened := [] |} with
  | Some st => Some {| groups := closed st |}
  | None => None
  end.

(** [m.group(n)] for n >= 1. *)
Definition group (n : nat) (m : Match) : result str :=
  match nth_error (groups m) (pred n) with
  | Some g => Ok g
  | None => Raise IndexError
  end.

(** [m.group(n)] where [m] may be [None]. *)
Definition group_of (n : nat) (m : option Match) : result str :=
  match m with
  | Some m' => group n m'
  | None => Raise AttributeError
  end.

End Re.

Import Re.

(** ** Lines and blocks *)

(** The two classes of line the program instantiates. *)
Inductive Line :=
| CommentLine (content : str)
| CodeLine (content : str).

Definition content (l : Line) : str :=
  match l with
  | CommentLine c => c
  | CodeLine c => c
  end.

(** [type(a) == type(b)] on lines *)
Definition same_type (a b : Line) : bool :=
  match a, b with
  | CommentLine _, CommentLine _ => true
  | CodeLine _, CodeLine _ => true
  | _, _ => false
  end.

Definition is_CodeLine (l : Line) : bool :=
  match l with
  | CodeLine _ => true
  | CommentLine _ => false
  end.

(** [Block] and its subclass [CodeBlock]. *)
Inductive Block :=
| PlainBlock (lines : list Line)
| CodeBlock (language : str) (lines : list Line).

Definition lines (b : Block) : list Line :=
  match b with
  | PlainBlock ls => ls
  | CodeBlock _ ls => ls
  end.

Definition add_line (b : Block) (line : Line) : Block :=
  match b with
  | PlainBlock ls => PlainBlock (ls ++ [line])
  | CodeBlock lang ls => CodeBlock lang (ls ++ [line])
  end.

(** [Block.__str__] and [CodeBlock.__str__] *)
Definition Block_str (b : Block) : str :=
  match b with
  | PlainBlock ls => join [NL] (map content ls)
  | CodeBlock lang ls =>
      ([NL] ++ u "```" ++ lang ++ [NL])
      ++ join [NL] (map content ls)
      ++ ([NL] ++ u "```" ++ [NL])
  end.

(** [str(x)] for an item yielded by [lines_to_blocks]. *)
Definition str_of_item (x : option Block) : str :=
  match x with
  | Some b => Block_str b
  | None => u "None"
  end.

(** ** make_lines *)

(** The pattern  \s* // \s* ( [^\n]* )  (written here with spaces). *)
Definition slash_comment_re : pattern :=
  [Star Space; Chr (Lit 47); Chr (Lit 47); Star Space;
   GroupOpen; Star NotNewline; GroupClose].

(** The pattern  \s* # \s* ( [^\n]* ) *)
Definition hash_comment_re : pattern :=
  [Star Space; Chr (Lit 35); Star Space;
   GroupOpen; Star NotNewline; GroupClose].

(** The pattern  ( [^\n]* ) *)
Definition clean_line_re : pattern :=
  [GroupOpen; Star NotNewline; GroupClose].

Definition comment_indicator_re (language : str) : pattern :=
  if str_eqb language (u "rs") then slash_comment_re else hash_comment_re.

(** One turn of the loop of [make_lines]: the lines it yields. *)
Definition make_line (language : str) (line : str) : result (list Line) :=
  match re_match (comment_indicator_re language) line with
  | Some is_comment =>
      c <- group 1 is_comment ;; Ok [CommentLine c]
  | None =>
      match re_match clean_line_re line with
      | Some cleaned_line =>
          c <- group 1 cleaned_line ;; Ok [CodeLine c]
      | None => Ok []
      end
  end.

Fixpoint make_lines (raw_lines : list str) (language : str)
  : result (list Line) :=
  match raw_lines with
  | [] => Ok []
  | line :: rest =>
      ys <- make_line language line ;;
      zs <- make_lines rest language ;;
      Ok (ys ++ zs)
  end.

(** ** lines_to_blocks *)

(** [xs[-1]] *)
Fixpoint last_item {A} (xs : list A) : result A :=
  match xs with
  | [] => Raise IndexError
  | [x] => Ok x
  | _ :: xs' => last_item xs'
  end.

(** One turn of the loop of [lines_to_blocks], from the value of
    [last_block] before it: the items it yields and [last_block] after
    it.  [None.add_line] would raise. *)
Definition blocks_step (language : str) (last_block : option Block)
           (line : Line) : result (list (option Block) * option Block) :=
  '(yielded, new_block) <-
    match last_block with
    | None => Ok ([], true)
    | Some b =>
        l <- last_item (lines b) ;;
        if negb (same_type l line) then Ok ([last_block], true)
        else Ok ([], false)
    end ;;
  let last_block :=
    if new_block : bool then
      if is_CodeLine line then Some (CodeBlock language [])
      else Some (PlainBlock [])
    else last_block in
  match last_block with
  | Some b => Ok (yielded, Some (add_line b line))
  | None => Raise AttributeError
  end.

(** The loop from a given [last_block], then the final [yield]. *)
Fixpoint blocks_loop (language : str) (last_block : option Block)
         (ls : list Line) : result (list (option Block)) :=
  match ls with
  | [] => Ok [last_block]
  | line :: rest =>
      '(yielded, last_block') <- blocks_step language last_block line ;;
      more <- blocks_loop language last_block' rest ;;
      Ok (yielded ++ more)
  end.

Definition lines_to_blocks (ls : list Line) (language : str)
  : result (list (option Block)) :=
  blocks_loop language None ls.

(** ** File *)

(** A [pathlib] path, by its string form [str(path)]. *)
Definition Path := str.

(** [s.rfind(c)], when [c] occurs in [s]. *)
Fixpoint rfind (c : char) (s : str) : option nat :=
  match s with
  | [] => None
  | x :: s' =>
      match rfind c s' with
      | Some i => Some (S i)
      | None => if N.eqb x c then Some O else None
      end
  end.

(** [path.name]: the last component. *)
Definition name (p : Path) : str :=
  match rfind 47 p with
  | Some i => skipn (S i) p
  | None => p
  end.

(** [path.suffix]: from the last dot of the name, when that dot is
    neither its first nor its last character. *)
Definition suffix (p : Path) : str :=
  let n := name p in
  match rfind 46 n with
  | Some i =>
      if Nat.ltb 0 i && Nat.ltb i (List.length n - 1) then skipn i n else []
  | None => []
  end.

(** The pattern  . ( [^\n]* ) *)
Definition suffix_re : pattern :=
  [Chr Dot; GroupOpen; Star NotNewline; GroupClose].

Record File := { path : Path; blocks : list (option Block) }.

(** The language [File.__init__] works with. *)
Definition effective_language (p : Path) (language : option str)
  : result str :=
  match language with
  | Some l => Ok l
  | None => group_of 1 (re_match suffix_re (suffix p))
  end.

(** [File(path, language)], on a file system [fs] that gives the result
    of [path.open("r").readlines()]. *)
(** The value of [list(lines_to_blocks(make_lines(raw_lines, language),
    language))].  Neither generator raises (see [make_lines_classify]
    and [lines_to_blocks_runs]), so running one after the other, instead
    of in turns, loses nothing. *)
Definition File_items (raw_lines : list str) (language : str)
  : result (list (option Block)) :=
  ls <- make_lines raw_lines language ;;
  lines_to_blocks ls language.

Definition File_init (fs : Path -> result (list str)) (p : Path)
           (language : option str) : result File :=
  language <- effective_language p language ;;
  raw_lines <- fs p ;;
  bs <- File_items raw_lines language ;;
  Ok {| path := p; blocks := bs |}.

(** The second operand of [File.__str__]: the items joined by newlines. *)
Definition render_items (items : list (option Block)) : str :=
  join [NL] (map str_of_item items).

Definition File_str (f : File) : str :=
  (u "### " ++ path f ++ [NL; NL]) ++ render_items (blocks f).

(** ** Chapter *)

Record Chapter := { intro : str; files : list File }.

(** The loop of [Chapter.__init__] from the list [files] built so far;
    [mkPath] is the constructor [Path] of [pathlib]. *)
Fixpoint Chapter_loop (fs : Path -> result (list str)) (mkPath : str -> Path)
         (files : list File) (paths : list str) : result (list File) :=
  match paths with
  | [] => Ok files
  | p :: rest =>
      f <- File_init fs (mkPath p) None ;;
      Chapter_loop fs mkPath (files ++ [f]) rest
  end.

(** [Chapter(intro_path, paths)]; the introduction is read with the
    built-in [open], from the same file system. *)
Definition Chapter_init (fs : Path -> result (list str))
           (mkPath : str -> Path) (intro_path : str) (paths : list str)
  : result Chapter :=
  intro_lines <- fs intro_path ;;
  fl <- Chapter_loop fs mkPath [] paths ;;
  Ok {| intro := List.concat intro_lines; files := fl |}.

Definition Chapter_str (c : Chapter) : str :=
  intro c ++ [NL] ++ join [NL] (map File_str (files c)).

(** ** Vocabulary of the properties *)

(** [f] is the [File] that a chapter builds for the path [p]. *)
Definition built (fs : Path -> result (list str)) (mkPath : str -> Path)
           (p : str) (f : File) : Prop :=
  File_init fs (mkPath p) None = Ok f.

(** The kind of a line and of a block. *)
Inductive Kind := Prose | Code.

Definition line_kind (l : Line) : Kind :=
  match l with
  | CommentLine _ => Prose
  | CodeLine _ => Code
  end.

Definition block_kind (b : Block) : Kind :=
  match b with
  | PlainBlock _ => Prose
  | CodeBlock _ _ => Code
  end.

Definition kind_eqb (a b : Kind) : bool :=
  match a, b with
  | Prose, Prose | Code, Code => true
  | _, _ => false
  end.

(** The blocks among the yielded items ([None] is not one). *)
Fixpoint yielded_blocks (items : list (option Block)) : list Block :=
  match items with
  | [] => []
  | Some b :: rest => b :: yielded_blocks rest
  | None :: rest => yielded_blocks rest
  end.

(** The block that a line opens: a new block of its kind, and the line
    added to it. *)
Definition opened_by (language : str) (line : Line) : Block :=
  add_line (if is_CodeLine line then CodeBlock language [] else PlainBlock [])
           line.

(** A block is a run: not empty, and all its lines of its kind. *)
Definition is_run (b : Block) : Prop :=
  lines b <> [] /\ Forall (fun l => line_kind l = block_kind b) (lines b).

(** Neighbours differ in kind. *)
Fixpoint adjacent_differ (bs : list Block) : Prop :=
  match bs with
  | b1 :: (b2 :: _) as rest =>
      block_kind b1 <> block_kind b2 /\ adjacent_differ rest
  | _ => True
  end.

(** The classification as the specification words it, with plain string
    functions: drop leading whitespace, drop the marker, drop whitespace
    again, stop at the end of the line. *)
Fixpoint lstrip (s : str) : str :=
  match s with
  | c :: s' => if isspace c then lstrip s' else s
  | [] => []
  end.

Fixpoint strip_prefix (m s : str) : option str :=
  match m, s with
  | [], _ => Some s
  | a :: m', b :: s' => if N.eqb b a then strip_prefix m' s' else None
  | _ :: _, [] => None
  end.

(** The text before the first newline. *)
Fixpoint take_line (s : str) : str :=
  match s with
  | c :: s' => if N.eqb c NL then [] else c :: take_line s'
  | [] => []
  end.

Definition marker (language : str) : str :=
  if str_eqb language (u "rs") then u "//" else u "#".

Definition classify (language : str) (line : str) : Line :=
  match strip_prefix (marker language) (lstrip line) with
  | Some rest => CommentLine (take_line (lstrip rest))
  | None => CodeLine (take_line line)
  end.

(** A raw line as [readlines] gives it: no newline but, possibly, at
    its end. *)
Definition raw_line (body : str) (terminated : bool) : str :=
  body ++ (if terminated then [NL] else []).

(** A code block carries the language tag [language]. *)
Definition tagged (language : str) (b : Block) : Prop :=
  match b with
  | CodeBlock l _ => l = language
  | PlainBlock _ => True
  end.



(** The loop of [lines_to_blocks] with its exceptions left out: the
    blocks it yields from the block [b] it holds and the lines to come. *)
Fixpoint runs_from (language : str) (b : Block) (ls : list Line)
  : list Block :=
  match ls with
  | [] => [b]
  | l :: rest =>
      if kind_eqb (line_kind l) (block_kind b)
      then runs_from language (add_line b l) rest
      else b :: runs_from language (opened_by language l) rest
  end.

(** A string of whitespace. *)
Definition all_space (s : str) : Prop := Forall (fun c => isspace c = true) s.

(** What is left of a string after a part of it that stops at the end
    of a line: nothing, or a newline and more. *)
Definition line_rest (post : str) : Prop :=
  post = [] \/ exists t, post = NL :: t.

(** What [make_lines] is to make of a raw line, said without the
    program: the line is a comment line when, after its leading
    whitespace, it begins with the marker of the language, and a code
    line when it does not; the content holds no newline; the content of
    a code line is followed in the raw line by [post] only, that of a
    comment line is preceded by whitespace, the marker and whitespace
    and is itself, with what follows it, free of leading whitespace. *)
Definition lies_in (language : str) (line : str) (l : Line) : Prop :=
  exists post,
    line_rest post
    /\ ~ In NL (content l)
    /\ match l with
       | CodeLine c =>
           line = c ++ post
           /\ forall rest, lstrip line <> marker language ++ rest
       | CommentLine c =>
           exists ws1 ws2,
             all_space ws1 /\ all_space ws2
             /\ lstrip (c ++ post) = c ++ post
             /\ line = ws1 ++ marker language ++ ws2 ++ c ++ post
       end.

(** The classification of a line for a given comment marker [m]: a
    comment line when the line, after its leading whitespace, begins
    with [m], a code line when it does not. *)
Definition classify_with (m : str) (line : str) : Line :=
  match strip_prefix m (lstrip line) with
  | Some rest => CommentLine (take_line (lstrip rest))
  | None => CodeLine (take_line line)
  end.

(** ** Strings *)

Lemma str_eqb_eq (a b : str) : str_eqb a b = true <-> a = b.
Proof.
  revert b; induction a as [|x a IH]; intros [|y b]; simpl;
    try (split; [discriminate | discriminate]); try tauto.
  rewrite andb_true_iff, N.eqb_eq, IH.
  split; [intros [-> ->]; reflexivity | intros H; inversion H; auto].
Qed.

Lemma lstrip_app (a b : str) :
  lstrip (a ++ b) = match lstrip a with [] => lstrip b | _ => lstrip a ++ b end.
Proof.
  induction a as [|c a IH]; simpl.
  - destruct (lstrip b); reflexivity.
  - destruct (isspace c); [exact IH | reflexivity].
Qed.

Lemma lstrip_incl (c : char) (s : str) : In c (lstrip s) -> In c s.
Proof.
  induction s as [|x s IH]; simpl; [tauto|].
  destruct (isspace x); simpl; tauto.
Qed.

Lemma take_line_app_no_NL (a b : str) :
  ~ In NL a -> take_line (a ++ b) = a ++ take_line b.
Proof.
  induction a as [|c a IH]; simpl; intros H; [reflexivity|].
  destruct (N.eqb_spec c NL) as [->|_]; [tauto|].
  rewrite IH by tauto; reflexivity.
Qed.

Lemma strip_prefix_app (m s rest : str) :
  strip_prefix m s = Some rest -> s = m ++ rest.
Proof.
  revert s; induction m as [|a m IH]; intros s; simpl.
  - intros H; inversion H; reflexivity.
  - destruct s as [|b s]; [discriminate|].
    destruct (N.eqb_spec b a) as [->|_]; [|discriminate].
    intros H; rewrite (IH _ H); reflexivity.
Qed.

Lemma strip_prefix_snoc (m s t : str) :
  (forall c, In c m -> ~ In c t) ->
  strip_prefix m (s ++ t) =
  match m, strip_prefix m s with
  | [], _ => Some (s ++ t)
  | _, Some r => Some (r ++ t)
  | _, None => None
  end.
Proof.
  revert s; induction m as [|a m IH]; intros s H; simpl; [reflexivity|].
  destruct s as [|b s]; simpl.
  - destruct t as [|b t]; [reflexivity|].
    destruct (N.eqb_spec b a) as [->|_]; [|reflexivity].
    exfalso; apply (H a); simpl; auto.
  - destruct (N.eqb b a); [|reflexivity].
    rewrite IH by (intros c Hc; apply H; simpl; auto).
    destruct m; [reflexivity|]. reflexivity.
Qed.


(** ** The matcher on the program's patterns *)

Section Matcher.

Lemma exec_Chr_cons (a : cclass) (p : pattern) (c : char) (s : str)
      (st : mstate) :
  exec (Chr a :: p) (c :: s) st
  = if accepts a c then exec p s (push c st) else None.
Proof. reflexivity. Qed.

Lemma exec_Star (a : cclass) (p : pattern) :
  exec (Star a :: p) = star a (exec p).
Proof. reflexivity. Qed.

(** Outside a group, consuming a character leaves the state as it is. *)
Lemma push_no_group (c : char) (cl : list str) :
  push c {| closed := cl; opened := [] |} = {| closed := cl; opened := [] |}.
Proof. reflexivity. Qed.

(** The group  ( [^\n]* )  at the end of a pattern takes the rest of
    the line. *)
Lemma star_rest_of_line (s g : str) (cl : list str) :
  star NotNewline (exec [GroupClose]) s {| closed := cl; opened := [g] |}
  = Some {| closed := cl ++ [g ++ take_line s]; opened := [] |}.
Proof.
  revert g; induction s as [|c s IH]; intros g; simpl.
  - unfold close_group; simpl. rewrite app_nil_r; reflexivity.
  - destruct (N.eqb c NL); simpl.
    + unfold close_group; simpl. rewrite app_nil_r; reflexivity.
    + unfold push; simpl. rewrite IH, <- app_assoc. reflexivity.
Qed.

Lemma exec_group_rest_of_line (s : str) (cl : list str) :
  exec [GroupOpen; Star NotNewline; GroupClose] s
       {| closed := cl; opened := [] |}
  = Some {| closed := cl ++ [take_line s]; opened := [] |}.
Proof.
  change (star NotNewline (exec [GroupClose]) s
               {| closed := cl; opened := [[]] |}
          = Some {| closed := cl ++ [take_line s]; opened := [] |}).
  apply star_rest_of_line.
Qed.

(** [\s*] before a continuation that rejects every whitespace
    character has a single way to match: it takes all the whitespace. *)
Lemma star_space_then_reject (k : str -> mstate -> option mstate)
      (cl : list str) (s : str) :
  (forall c s', isspace c = true ->
                k (c :: s') {| closed := cl; opened := [] |} = None) ->
  star Space k s {| closed := cl; opened := [] |}
  = k (lstrip s) {| closed := cl; opened := [] |}.
Proof.
  intros Hk; induction s as [|c s IH]; simpl; [reflexivity|].
  destruct (isspace c) eqn:E; [|reflexivity].
  rewrite push_no_group, IH.
  destruct (k (lstrip s) _) eqn:R; [reflexivity|].
  apply Hk; exact E.
Qed.

(** [\s*] before a continuation that matches after the whitespace: the
    longest repetition is tried first and wins. *)
Lemma star_space_then_accept (k : str -> mstate -> option mstate)
      (cl : list str) (s : str) :
  k (lstrip s) {| closed := cl; opened := [] |} <> None ->
  star Space k s {| closed := cl; opened := [] |}
  = k (lstrip s) {| closed := cl; opened := [] |}.
Proof.
  induction s as [|c s IH]; simpl; intros Hk; [reflexivity|].
  destruct (isspace c) eqn:E; [|reflexivity].
  rewrite push_no_group, (IH Hk).
  destruct (k (lstrip s) _) eqn:R; [reflexivity | congruence].
Qed.

(** The tail shared by the two comment patterns:  \s* ( [^\n]* ) *)
Lemma exec_comment_tail (s : str) :
  exec [Star Space; GroupOpen; Star NotNewline; GroupClose] s
       {| closed := []; opened := [] |}
  = Some {| closed := [take_line (lstrip s)]; opened := [] |}.
Proof.
  rewrite exec_Star.
  rewrite star_space_then_accept; rewrite exec_group_rest_of_line;
    [reflexivity | discriminate].
Qed.

Lemma re_match_hash (line : str) :
  re_match hash_comment_re line =
  match strip_prefix (u "#") (lstrip line) with
  | Some rest => Some {| groups := [take_line (lstrip rest)] |}
  | None => None
  end.
Proof.
  unfold re_match, hash_comment_re.
  rewrite exec_Star, star_space_then_reject.
  - destruct (lstrip line) as [|c rest]; [reflexivity|].
    rewrite exec_Chr_cons.
    change (strip_prefix (u "#") (c :: rest))
      with (if N.eqb c 35 then Some rest else None).
    cbn [accepts].
    destruct (N.eqb c 35); [|reflexivity].
    rewrite push_no_group, exec_comment_tail. reflexivity.
  - intros c s' E. rewrite exec_Chr_cons. cbn [accepts].
    destruct (N.eqb_spec c 35) as [->|_]; [discriminate E | reflexivity].
Qed.

Lemma re_match_slash (line : str) :
  re_match slash_comment_re line =
  match strip_prefix (u "//") (lstrip line) with
  | Some rest => Some {| groups := [take_line (lstrip rest)] |}
  | None => None
  end.
Proof.
  unfold re_match, slash_comment_re.
  rewrite exec_Star, star_space_then_reject.
  - destruct (lstrip line) as [|c rest]; [reflexivity|].
    rewrite exec_Chr_cons.
    change (strip_prefix (u "//") (c :: rest))
      with (if N.eqb c 47 then strip_prefix [47] rest else None).
    cbn [accepts].
    destruct (N.eqb c 47); [|reflexivity].
    rewrite push_no_group.
    destruct rest as [|d rest]; [reflexivity|].
    rewrite exec_Chr_cons.
    change (strip_prefix [47] (d :: rest))
      with (if N.eqb d 47 then Some rest else None).
    cbn [accepts].
    destruct (N.eqb d 47); [|reflexivity].
    rewrite push_no_group, exec_comment_tail. reflexivity.
  - intros c s' E. rewrite exec_Chr_cons. cbn [accepts].
    destruct (N.eqb_spec c 47) as [->|_]; [discriminate E | reflexivity].
Qed.

Lemma re_match_comment (language line : str) :
  re_match (comment_indicator_re language) line =
  match strip_prefix (marker language) (lstrip line) with
  | Some rest => Some {| groups := [take_line (lstrip rest)] |}
  | None => None
  end.
Proof.
  unfold comment_indicator_re, marker.
  destruct (str_eqb language (u "rs")).
  - apply re_match_slash.
  - apply re_match_hash.
Qed.

(** The cleaning pattern matches every line. *)
Lemma re_match_clean (line : str) :
  re_match clean_line_re line = Some {| groups := [take_line line] |}.
Proof.
  unfold re_match, clean_line_re.
  rewrite exec_group_rest_of_line. reflexivity.
Qed.

End Matcher.

(** ** make_lines is the classification, line by line *)

Lemma make_line_classify (language line : str) :
  make_line language line = Ok [classify language line].
Proof.
  unfold make_line, classify.
  rewrite re_match_comment.
  destruct (strip_prefix (marker language) (lstrip line)); [reflexivity|].
  rewrite re_match_clean. reflexivity.
Qed.

Lemma make_lines_classify (raw_lines : list str) (language : str) :
  make_lines raw_lines language = Ok (map (classify language) raw_lines).
Proof.
  induction raw_lines as [|line rest IH]; simpl; [reflexivity|].
  rewrite make_line_classify, IH. reflexivity.
Qed.

Lemma strip_prefix_self (m rest : str) : strip_prefix m (m ++ rest) = Some rest.
Proof.
  induction m as [|a m IH]; simpl; [reflexivity|].
  rewrite N.eqb_refl. exact IH.
Qed.

Lemma marker_cases (language : str) :
  (language = u "rs" /\ marker language = u "//")
  \/ (language <> u "rs" /\ marker language = u "#").
Proof.
  unfold marker.
  destruct (str_eqb language (u "rs")) eqn:E.
  - left; split; [apply str_eqb_eq; exact E | reflexivity].
  - right; split; [|reflexivity].
    intros H; apply str_eqb_eq in H; congruence.
Qed.

Lemma marker_no_NL (language : str) (c : char) :
  In c (marker language) -> ~ In c [NL].
Proof.
  destruct (marker_cases language) as [[_ ->]|[_ ->]]; simpl; intros H H';
    repeat (destruct H as [<-|H]; [destruct H' as [H'|[]]; discriminate H'|]);
    exact H.
Qed.

(** *** Raw lines: at most one newline, at the end *)

Lemma take_line_raw (body : str) (terminated : bool) :
  ~ In NL body -> take_line (raw_line body terminated) = body.
Proof.
  intros H; unfold raw_line.
  rewrite take_line_app_no_NL by exact H.
  destruct terminated; simpl; apply app_nil_r.
Qed.

Lemma take_line_lstrip_raw (body : str) (terminated : bool) :
  ~ In NL body -> take_line (lstrip (raw_line body terminated)) = lstrip body.
Proof.
  intros H; unfold raw_line. rewrite lstrip_app.
  assert (Hs : ~ In NL (lstrip body))
    by (intros Hin; apply H, lstrip_incl, Hin).
  destruct (lstrip body) as [|c t] eqn:E.
  - destruct terminated; reflexivity.
  - rewrite take_line_app_no_NL by exact Hs.
    destruct terminated; cbn [take_line N.eqb NL]; apply (app_nil_r (c :: t)).
Qed.

Lemma strip_marker_raw (language body : str) (terminated : bool) :
  strip_prefix (marker language) (lstrip (raw_line body terminated)) =
  match strip_prefix (marker language) (lstrip body) with
  | Some rest => Some (raw_line rest terminated)
  | None => None
  end.
Proof.
  unfold raw_line. rewrite lstrip_app.
  destruct (lstrip body) as [|c t] eqn:E.
  - destruct (marker_cases language) as [[_ ->]|[_ ->]];
      destruct terminated; reflexivity.
  - rewrite strip_prefix_snoc.
    + destruct (marker_cases language) as [[_ ->]|[_ ->]];
        [change (u "//") with [47; 47] | change (u "#") with [35]];
        cbv iota; destruct (strip_prefix _ (c :: t)); reflexivity.
    + intros d Hd. destruct terminated; [|simpl; tauto].
      apply (marker_no_NL language); exact Hd.
Qed.

Lemma classify_raw (language body : str) (terminated : bool) :
  ~ In NL body ->
  classify language (raw_line body terminated) =
  match strip_prefix (marker language) (lstrip body) with
  | Some rest => CommentLine (lstrip rest)
  | None => CodeLine body
  end.
Proof.
  intros H; unfold classify. rewrite strip_marker_raw.
  destruct (strip_prefix (marker language) (lstrip body)) as [rest|] eqn:E.
  - rewrite take_line_lstrip_raw; [reflexivity|].
    intros Hin; apply H, lstrip_incl.
    rewrite (strip_prefix_app _ _ _ E). apply in_or_app; right; exact Hin.
  - rewrite take_line_raw by exact H. reflexivity.
Qed.

(** ** Claims on make_lines *)

(** C4. [make_lines] yields exactly one line object per raw line, for
    every list of raw lines and every language tag: it ends without an
    exception and the number of lines yielded is the number of raw
    lines; the test [cleaned_line is not None] never skips one. *)
Theorem make_lines_one_per_line (raw_lines : list str) (language : str) :
  exists ls,
    make_lines raw_lines language = Ok ls
    /\ List.length ls = List.length raw_lines.
Proof.
  exists (map (classify language) raw_lines). split.
  - apply make_lines_classify.
  - apply length_map.
Qed.

(** C5. For raw lines (each a body without newline, with or without
    the newline that ends it), however many, and any language tag: for
    each raw line, in its place, if the body, after its leading
    whitespace, begins with the comment marker of the language, the
    line yielded is a comment line whose content is what follows the
    marker without its leading whitespace and without the newline;
    otherwise it is a code line whose content is the body, untouched.
    So the line of two spaces, hash, [hello world] is prose [hello
    world] for [py], and the line that is only a newline is a code line
    of empty content. *)
Theorem make_lines_raw_line (language : str) (raws : list (str * bool)) :
  Forall (fun r => ~ In NL (fst r)) raws ->
  make_lines (map (fun r => raw_line (fst r) (snd r)) raws) language =
    Ok (map (fun r =>
               match strip_prefix (marker language) (lstrip (fst r)) with
               | Some rest => CommentLine (lstrip rest)
               | None => CodeLine (fst r)
               end) raws)
  /\ make_lines [ln "  # hello world"] (u "py")
     = Ok [CommentLine (u "hello world")]
  /\ make_lines [[NL]] language = Ok [CodeLine []].
Proof.
  intros H. rewrite !make_lines_classify. split; [|split].
  - f_equal. rewrite map_map. apply map_ext_in. intros [body t] Hin.
    cbn [fst snd]. apply classify_raw.
    rewrite Forall_forall in H. exact (H _ Hin).
  - reflexivity.
  - cbn [map]. change [NL] with (raw_line [] true).
    rewrite classify_raw by (simpl; tauto).
    destruct (marker_cases language) as [[_ ->]|[_ ->]]; reflexivity.
Qed.

Lemma make_lines_raw_line_witness :
  Forall (fun r : str * bool => ~ In NL (fst r))
         [(u "// doc", true); (u "    let x = 1;", true); (u "}", false)]
  /\ make_lines [ln "// doc"; ln "    let x = 1;"; u "}"] (u "rs")
     = Ok [CommentLine (u "doc"); CodeLine (u "    let x = 1;");
           CodeLine (u "}")].
Proof.
  assert (H : Forall (fun r : str * bool => ~ In NL (fst r))
                [(u "// doc", true); (u "    let x = 1;", true);
                 (u "}", false)]).
  { repeat constructor; intros Hin; vm_compute in Hin; intuition discriminate. }
  split; [exact H|].
  exact (proj1 (make_lines_raw_line (u "rs") _ H)).
Defined.

(** Whitespace at the end of the text of a comment is kept. *)
Remark make_lines_trailing_space :
  make_lines [ln "# hello  "] (u "py") = Ok [CommentLine (u "hello  ")].
Proof. reflexivity. Qed.

(** The limit of C5: between the marker and the text, the whitespace
    that is skipped may hold newlines, so that a string with a newline
    inside, which [readlines] never gives, is read past it. *)
Remark make_lines_inner_newline :
  make_lines [u "#" ++ [NL] ++ u "next"] (u "py") = Ok [CommentLine (u "next")].
Proof. reflexivity. Qed.

Lemma classify_with_marker (language line : str) :
  classify language line = classify_with (marker language) line.
Proof. reflexivity. Qed.

(** C6. The marker is [//] exactly for the tag [rs] and [#] for every
    other tag, known or not.  For the tag [rs], every raw line of the
    input, in its place, is classified with [//]; for any other tag
    every raw line is classified with [#]; no tag makes [make_lines]
    raise.  The pattern chosen follows the same rule.  [// note] is
    prose [note] for [rs] and code for [py], also when other lines come
    before and after it. *)
Theorem marker_choice (language : str) (raw_lines : list str) :
  ((language = u "rs"
    /\ make_lines raw_lines language
       = Ok (map (classify_with (u "//")) raw_lines))
   \/ (language <> u "rs"
       /\ make_lines raw_lines language
          = Ok (map (classify_with (u "#")) raw_lines)))
  /\ (comment_indicator_re language = slash_comment_re <-> language = u "rs")
  /\ (comment_indicator_re language = hash_comment_re <-> language <> u "rs")
  /\ make_lines [ln "// note"] (u "rs") = Ok [CommentLine (u "note")]
  /\ make_lines [ln "// note"] (u "py") = Ok [CodeLine (u "// note")]
  /\ make_lines [ln "# a"; ln "// note"; ln "x = 1"] (u "rs")
     = Ok [CodeLine (u "# a"); CommentLine (u "note"); CodeLine (u "x = 1")]
  /\ make_lines [ln "# a"; ln "// note"; ln "x = 1"] (u "py")
     = Ok [CommentLine (u "a"); CodeLine (u "// note"); CodeLine (u "x = 1")].
Proof.
  assert (Hre : slash_comment_re <> hash_comment_re) by discriminate.
  split; [|split; [|split; [|repeat split]]].
  - rewrite make_lines_classify.
    destruct (marker_cases language) as [[Hl Hm]|[Hl Hm]];
      [left | right]; (split; [exact Hl|]); f_equal;
      apply map_ext; intros line;
      rewrite classify_with_marker, Hm; reflexivity.
  - unfold comment_indicator_re.
    destruct (str_eqb language (u "rs")) eqn:E; split.
    + intros _. apply str_eqb_eq; exact E.
    + reflexivity.
    + congruence.
    + intros H. apply str_eqb_eq in H. congruence.
  - unfold comment_indicator_re.
    destruct (str_eqb language (u "rs")) eqn:E; split.
    + congruence.
    + intros H. apply str_eqb_eq in E. contradiction.
    + intros _ H. apply str_eqb_eq in H. congruence.
    + reflexivity.
Qed.

(** ** lines_to_blocks: the invariant of the loop *)

Lemma kind_eqb_eq (a b : Kind) : kind_eqb a b = true <-> a = b.
Proof. destruct a, b; simpl; split; congruence. Qed.

Lemma kind_eqb_refl (a : Kind) : kind_eqb a a = true.
Proof. destruct a; reflexivity. Qed.

Section Grouping.

Variable language : str.

Lemma same_type_kind (a b : Line) :
  same_type a b = true <-> line_kind a = line_kind b.
Proof. destruct a, b; simpl; split; congruence. Qed.

Lemma last_item_Forall {A} (P : A -> Prop) (xs : list A) :
  xs <> [] -> Forall P xs -> exists x, last_item xs = Ok x /\ P x.
Proof.
  induction xs as [|x xs IH]; intros Hne Hall; [congruence|].
  inversion Hall as [|? ? Hx Hxs]; subst.
  destruct xs as [|y xs].
  - exists x; split; [reflexivity | exact Hx].
  - apply IH; [discriminate | exact Hxs].
Qed.

Lemma lines_add_line (b : Block) (line : Line) :
  lines (add_line b line) = lines b ++ [line].
Proof. destruct b; reflexivity. Qed.

Lemma block_kind_add_line (b : Block) (line : Line) :
  block_kind (add_line b line) = block_kind b.
Proof. destruct b; reflexivity. Qed.

(** Appending a line of the block's kind keeps the block a run. *)
Lemma is_run_add_line (b : Block) (line : Line) :
  is_run b -> line_kind line = block_kind b -> is_run (add_line b line).
Proof.
  intros [Hne Hall] Hk. split.
  - rewrite lines_add_line. intros H. apply app_eq_nil in H.
    destruct H; discriminate.
  - rewrite lines_add_line, block_kind_add_line.
    apply Forall_app; split; [exact Hall | repeat constructor; exact Hk].
Qed.

Lemma opened_by_run (line : Line) :
  is_run (opened_by language line) /\ block_kind (opened_by language line) = line_kind line
  /\ lines (opened_by language line) = [line].
Proof.
  destruct line; (split; [split; [discriminate | repeat constructor] |]);
    split; reflexivity.
Qed.

(** With a run in [last_block], a turn of the loop either extends it or
    yields it and opens the next one. *)
Lemma blocks_step_run (b : Block) (line : Line) :
  is_run b ->
  blocks_step language (Some b) line =
  Ok (if kind_eqb (line_kind line) (block_kind b)
      then ([], Some (add_line b line))
      else ([Some b], Some (opened_by language line))).
Proof.
  intros [Hne Hall].
  destruct (last_item_Forall _ _ Hne Hall) as (l & Hl & Hk).
  unfold blocks_step. rewrite Hl. cbn [bind].
  destruct (same_type l line) eqn:E.
  - apply same_type_kind in E. rewrite <- Hk, E.
    destruct (line_kind line); reflexivity.
  - assert (Hd : line_kind l <> line_kind line).
    { intros H. apply same_type_kind in H. congruence. }
    rewrite <- Hk.
    destruct l, line; simpl in *; try congruence; reflexivity.
Qed.

Lemma blocks_loop_run (ls : list Line) :
  forall b, is_run b ->
  exists b0 rest,
    blocks_loop language (Some b) ls = Ok (map Some (b0 :: rest))
    /\ block_kind b0 = block_kind b
    /\ flat_map lines (b0 :: rest) = lines b ++ ls
    /\ Forall is_run (b0 :: rest)
    /\ adjacent_differ (b0 :: rest).
Proof.
  induction ls as [|line ls IH]; intros b Hb.
  - exists b, []. simpl. rewrite !app_nil_r.
    repeat split; try (constructor; [exact Hb | constructor]); apply Hb.
  - cbn [blocks_loop]. rewrite (blocks_step_run _ _ Hb).
    destruct (kind_eqb (line_kind line) (block_kind b)) eqn:E.
    + apply kind_eqb_eq in E.
      destruct (IH _ (is_run_add_line _ _ Hb E))
        as (b0 & rest & Hloop & Hk & Hcat & Hruns & Hadj).
      exists b0, rest. cbn [bind]. rewrite Hloop.
      rewrite block_kind_add_line in Hk.
      rewrite lines_add_line, <- app_assoc in Hcat.
      repeat split; try assumption.
    + destruct (opened_by_run line) as (Hrun & Hkind & Hlines).
      destruct (IH _ Hrun) as (b0 & rest & Hloop & Hk & Hcat & Hruns & Hadj).
      exists b, (b0 :: rest). cbn [bind]. rewrite Hloop.
      repeat split; try assumption.
      * cbn [flat_map] in *. rewrite Hcat, Hlines. reflexivity.
      * constructor; assumption.
      * rewrite Hk, Hkind. intros H.
        rewrite <- H, kind_eqb_refl in E. discriminate.
Qed.

(** What [lines_to_blocks] yields: [None] alone for no line at all,
    and else the runs of the input, in order. *)
Lemma lines_to_blocks_runs (ls : list Line) :
  (ls = [] /\ lines_to_blocks ls language = Ok [None])
  \/ (exists blocks,
        ls <> []
        /\ lines_to_blocks ls language = Ok (map Some blocks)
        /\ flat_map lines blocks = ls
        /\ Forall is_run blocks
        /\ adjacent_differ blocks).
Proof.
  destruct ls as [|line ls]; [left; split; reflexivity | right].
  destruct (opened_by_run line) as (Hrun & Hkind & Hlines).
  destruct (blocks_loop_run ls _ Hrun)
    as (b0 & rest & Hloop & Hk & Hcat & Hruns & Hadj).
  exists (b0 :: rest). split; [discriminate|].
  split; [|rewrite Hcat, Hlines; repeat split; assumption].
  unfold lines_to_blocks. cbn [blocks_loop].
  replace (blocks_step language None line)
    with (Ok (@nil (option Block), Some (opened_by language line)))
    by (destruct line; reflexivity).
  cbn [bind]. rewrite Hloop. reflexivity.
Qed.

Lemma yielded_blocks_Some (bs : list Block) :
  yielded_blocks (map Some bs) = bs.
Proof. induction bs as [|b bs IH]; simpl; congruence. Qed.

End Grouping.

(** ** Claims on lines_to_blocks *)

(** C1. On the empty sequence of lines the generator does not yield
    zero items: the [yield last_block] after the loop runs with
    [last_block] still [None], so that exactly one item, [None], is
    yielded. *)
Theorem lines_to_blocks_empty (language : str) :
  lines_to_blocks [] language = Ok [None]
  /\ lines_to_blocks [] language <> Ok [].
Proof. split; [reflexivity | discriminate]. Qed.

(** What C1 leads to: an empty source file is rendered as its heading
    and the word [None]. *)
Remark File_str_empty_file :
  File_init (fun _ => Ok []) (u "empty.rs") None
  = Ok {| path := u "empty.rs"; blocks := [None] |}
  /\ File_str {| path := u "empty.rs"; blocks := [None] |}
     = u "### empty.rs" ++ [NL; NL] ++ u "None".
Proof. split; reflexivity. Qed.

(** C2. For every finite sequence of lines, [lines_to_blocks] ends
    without an exception, and the lines of the blocks it yields, taken
    in the order of the blocks, are the input: every line once, in its
    place.  (Unless the input is empty every item yielded is a block.) *)
Theorem lines_to_blocks_partition (ls : list Line) (language : str) :
  exists items,
    lines_to_blocks ls language = Ok items
    /\ flat_map lines (yielded_blocks items) = ls
    /\ (ls = [] \/ items = map Some (yielded_blocks items)).
Proof.
  destruct (lines_to_blocks_runs language ls)
    as [[-> H]|(blocks & Hne & H & Hcat & _)].
  - exists [None]. split; [exact H | split; [reflexivity | left; reflexivity]].
  - exists (map Some blocks). rewrite yielded_blocks_Some.
    split; [exact H | split; [exact Hcat | right; reflexivity]].
Qed.

(** C3. For every finite sequence of lines, no two neighbours among the
    blocks yielded by [lines_to_blocks] have the same kind, and each
    block is a run (not empty, all its lines of the kind of the block)
    of the input, which the blocks cover in order: the blocks are the
    maximal runs. *)
Theorem lines_to_blocks_maximal (ls : list Line) (language : str) :
  exists items,
    lines_to_blocks ls language = Ok items
    /\ adjacent_differ (yielded_blocks items)
    /\ Forall is_run (yielded_blocks items)
    /\ flat_map lines (yielded_blocks items) = ls
    /\ (ls = [] \/ items = map Some (yielded_blocks items)).
Proof.
  destruct (lines_to_blocks_runs language ls)
    as [[-> H]|(blocks & Hne & H & Hcat & Hruns & Hadj)].
  - exists [None]. cbn [yielded_blocks flat_map adjacent_differ].
    split; [exact H | auto].
  - exists (map Some blocks). rewrite yielded_blocks_Some.
    split; [exact H | auto].
Qed.

(** ** Claims on rendering *)

Lemma join_cons (sep p : str) (rest : list str) :
  rest <> [] -> join sep (p :: rest) = p ++ sep ++ join sep rest.
Proof. destruct rest; [congruence | reflexivity]. Qed.

Lemma join_app (sep : str) (a b : list str) :
  a <> [] -> b <> [] -> join sep (a ++ b) = join sep a ++ sep ++ join sep b.
Proof.
  intros Ha Hb. induction a as [|p a IH]; [congruence|].
  destruct a as [|q a].
  - cbn [app]. rewrite join_cons by exact Hb. reflexivity.
  - change ((p :: q :: a) ++ b) with (p :: ((q :: a) ++ b)).
    rewrite join_cons by discriminate.
    rewrite IH by discriminate.
    rewrite (join_cons sep p (q :: a)) by discriminate.
    rewrite <- !app_assoc. reflexivity.
Qed.

(** C8. A code block of language [lang] that is not empty renders as a
    newline, three backticks and [lang], a newline, the contents of its
    lines joined by newlines, a newline, three backticks, a newline;
    that is, as these lines joined by newlines: an empty line, the
    fence with [lang], the contents, the closing fence, an empty line. *)
Theorem CodeBlock_str_layout (lang : str) (ls : list Line) :
  ls <> [] ->
  Block_str (CodeBlock lang ls)
  = [NL] ++ (u "```" ++ lang) ++ [NL]
    ++ join [NL] (map content ls)
    ++ [NL] ++ u "```" ++ [NL]
  /\ Block_str (CodeBlock lang ls)
     = join [NL] ([[]; u "```" ++ lang] ++ map content ls ++ [u "```"; []]).
Proof.
  intros Hne. split.
  - cbn [Block_str]. rewrite <- !app_assoc. reflexivity.
  - assert (Hm : map content ls <> [])
      by (destruct ls; [congruence | discriminate]).
    rewrite app_assoc.
    rewrite join_app by discriminate.
    rewrite join_app by (exact Hm || discriminate).
    cbn [Block_str join]. rewrite <- !app_assoc, app_nil_r. reflexivity.
Qed.

Lemma CodeBlock_str_layout_witness :
  [CodeLine (u "fn main() {}"); CodeLine (u "fn done() {}")] <> []
  /\ Block_str (CodeBlock (u "rs")
                  [CodeLine (u "fn main() {}"); CodeLine (u "fn done() {}")])
     = join [NL] [[]; u "```rs"; u "fn main() {}"; u "fn done() {}";
                  u "```"; []].
Proof.
  assert (H : [CodeLine (u "fn main() {}"); CodeLine (u "fn done() {}")] <> [])
    by discriminate.
  split; [exact H|].
  exact (proj2 (CodeBlock_str_layout (u "rs") _ H)).
Defined.

(** An empty code block has one more empty line between its fences. *)
Remark CodeBlock_str_empty (lang : str) :
  Block_str (CodeBlock lang [])
  = join [NL] [[]; u "```" ++ lang; []; u "```"; []].
Proof. cbn [Block_str join map]. rewrite <- !app_assoc. reflexivity. Qed.

(** ** Claims on File *)

Lemma rfind_skipn (c : char) (s : str) (i : nat) :
  rfind c s = Some i -> exists t, skipn i s = c :: t.
Proof.
  revert i; induction s as [|x s IH]; intros i; simpl; [discriminate|].
  destruct (rfind c s) as [j|].
  - intros H; inversion H; subst. exact (IH _ eq_refl).
  - destruct (N.eqb_spec x c) as [->|_]; [|discriminate].
    intros H; inversion H; subst. exists s; reflexivity.
Qed.

(** A suffix, when there is one, begins with the dot. *)
Lemma suffix_dot (p : Path) : suffix p = [] \/ exists t, suffix p = 46 :: t.
Proof.
  unfold suffix. destruct (rfind 46 (name p)) as [i|] eqn:E; [|left; reflexivity].
  destruct (_ && _); [|left; reflexivity].
  right. exact (rfind_skipn _ _ _ E).
Qed.

Lemma re_match_suffix (s : str) :
  re_match suffix_re s =
  match s with
  | c :: s' =>
      if negb (N.eqb c NL) then Some {| groups := [take_line s'] |} else None
  | [] => None
  end.
Proof.
  unfold re_match, suffix_re. destruct s as [|c s]; [reflexivity|].
  rewrite exec_Chr_cons. cbn [accepts].
  destruct (negb (N.eqb c NL)); [|reflexivity].
  rewrite push_no_group, exec_group_rest_of_line. reflexivity.
Qed.

(** Without an override the language is read off the suffix, and there
    is none to read off an empty suffix. *)
Lemma effective_language_suffix (p : Path) :
  effective_language p None =
  match suffix p with
  | [] => Raise AttributeError
  | _ :: t => Ok (take_line t)
  end.
Proof.
  unfold effective_language. rewrite re_match_suffix.
  destruct (suffix_dot p) as [->|[t ->]]; reflexivity.
Qed.

Lemma File_items_nonempty (raw : list str) (language : str) :
  raw <> [] ->
  exists bs,
    File_items raw language = Ok (map Some bs)
    /\ flat_map lines bs = map (classify language) raw.
Proof.
  intros Hne. unfold File_items. rewrite make_lines_classify. cbn [bind].
  destruct (lines_to_blocks_runs language (map (classify language) raw))
    as [[Hnil _]|(bs & _ & H & Hcat & _)].
  - destruct raw; [congruence | discriminate].
  - exists bs; split; assumption.
Qed.

Lemma render_items_blocks (bs : list Block) :
  render_items (map Some bs) = join [NL] (map Block_str bs).
Proof. unfold render_items. rewrite map_map. reflexivity. Qed.

(** C7, as the program has it.  With the prose line marked [//], as the
    language [rs] wants it, the three lines give one plain block holding
    [intro text] and one code block holding the two code lines, and the
    items joined by a newline are the text of the scenario. *)
Theorem scenario_rs_slash :
  File_items [ln "// intro text"; ln "fn main() {}"; ln "fn done() {}"]
             (u "rs")
  = Ok [Some (PlainBlock [CommentLine (u "intro text")]);
        Some (CodeBlock (u "rs") [CodeLine (u "fn main() {}");
                                  CodeLine (u "fn done() {}")])]
  /\ render_items
       [Some (PlainBlock [CommentLine (u "intro text")]);
        Some (CodeBlock (u "rs") [CodeLine (u "fn main() {}");
                                  CodeLine (u "fn done() {}")])]
     = ln "intro text" ++ ln "" ++ ln "```rs"
       ++ ln "fn main() {}" ++ ln "fn done() {}" ++ ln "```".
Proof. split; vm_compute; reflexivity. Qed.

(** C7, as stated, fails: with the prose line marked [#] and the
    language [rs], the first line is code like the other two, there is
    one code block of three lines and no plain block, and the text
    differs from the one of the scenario. *)
Lemma scenario_rs_hash :
  File_items [ln "# intro text"; ln "fn main() {}"; ln "fn done() {}"]
             (u "rs")
  = Ok [Some (CodeBlock (u "rs") [CodeLine (u "# intro text");
                                  CodeLine (u "fn main() {}");
                                  CodeLine (u "fn done() {}")])]
  /\ render_items
       [Some (CodeBlock (u "rs") [CodeLine (u "# intro text");
                                  CodeLine (u "fn main() {}");
                                  CodeLine (u "fn done() {}")])]
     <> ln "intro text" ++ ln "" ++ ln "```rs"
        ++ ln "fn main() {}" ++ ln "fn done() {}" ++ ln "```".
Proof. split; vm_compute; [reflexivity | discriminate]. Qed.

(** C9, as the program has it.  When [File(path, language)] succeeds on
    a file of raw lines [raw], its text begins with [### ], the path and
    two newlines; when [raw] is not empty, every item is a block and
    what follows the heading is the blocks' texts joined by single
    newlines; the blocks are those of the effective language, which,
    without an override, is the suffix of the path without its first
    character and cut at its first newline, if it has one.
    [amp/src/lib.rs] has the language [rs]. *)
Theorem File_str_layout (fs : Path -> result (list str)) (p : Path)
        (language : option str) (raw : list str) (f : File) :
  fs p = Ok raw ->
  File_init fs p language = Ok f ->
  (exists rest, File_str f = (u "### " ++ p ++ [NL; NL]) ++ rest)
  /\ (raw <> [] ->
      blocks f = map Some (yielded_blocks (blocks f))
      /\ File_str f
         = (u "### " ++ p ++ [NL; NL])
           ++ join [NL] (map Block_str (yielded_blocks (blocks f))))
  /\ (exists lang,
        effective_language p language = Ok lang
        /\ File_items raw lang = Ok (blocks f)
        /\ (language = None -> lang = take_line (tl (suffix p))))
  /\ effective_language (u "amp/src/lib.rs") None = Ok (u "rs").
Proof.
  intros Hfs Hinit. unfold File_init in Hinit.
  destruct (effective_language p language) as [lang|e] eqn:El;
    [|discriminate Hinit].
  cbn [bind] in Hinit. rewrite Hfs in Hinit. cbn [bind] in Hinit.
  destruct (File_items raw lang) as [items|e] eqn:Ei; [|discriminate Hinit].
  cbn [bind] in Hinit. inversion Hinit; subst f; clear Hinit.
  unfold File_str; cbn [path blocks].
  split; [eexists; reflexivity|].
  split; [|split; [|reflexivity]].
  - intros Hne.
    destruct (File_items_nonempty raw lang Hne) as (bs & Hbs & _).
    rewrite Hbs in Ei. inversion Ei; subst items.
    rewrite yielded_blocks_Some, render_items_blocks. split; reflexivity.
  - exists lang. split; [reflexivity | split; [exact Ei|]].
    intros ->. rewrite effective_language_suffix in El.
    destruct (suffix p) as [|c t]; [discriminate El|].
    inversion El; reflexivity.
Qed.

Lemma File_str_layout_witness :
  exists rest,
    File_str {| path := u "amp/src/lib.rs";
                blocks := [Some (CodeBlock (u "rs") [CodeLine (u "fn f() {}")])] |}
    = (u "### amp/src/lib.rs" ++ [NL; NL]) ++ rest.
Proof.
  exact (proj1 (File_str_layout
                  (fun _ => Ok [ln "fn f() {}"]) (u "amp/src/lib.rs") None
                  [ln "fn f() {}"]
                  {| path := u "amp/src/lib.rs";
                     blocks := [Some (CodeBlock (u "rs")
                                        [CodeLine (u "fn f() {}")])] |}
                  eq_refl eq_refl)).
Defined.

(** C9, as stated, fails on the language: for the path [a.r], newline,
    [s] the suffix without its dot is [r], newline, [s], and the
    language is [r]. *)
Lemma language_stops_at_newline :
  effective_language (u "a.r" ++ [NL] ++ u "s") None = Ok (u "r")
  /\ tl (suffix (u "a.r" ++ [NL] ++ u "s")) = u "r" ++ [NL] ++ u "s"
  /\ effective_language (u "a.r" ++ [NL] ++ u "s") None
     <> Ok (tl (suffix (u "a.r" ++ [NL] ++ u "s"))).
Proof.
  split; [vm_compute; reflexivity|].
  split; [vm_compute; reflexivity|].
  vm_compute. discriminate.
Qed.

(** C10. For a path without suffix and no language given, [File(path)]
    raises: the pattern finds no character to match in the empty
    suffix, [re.match] gives [None], and [group] is asked of it.  This
    happens while the language is worked out, before the file is
    opened; no language is made up. *)
Theorem File_init_no_suffix (fs : Path -> result (list str)) (p : Path) :
  suffix p = [] ->
  re_match suffix_re (suffix p) = None
  /\ effective_language p None = Raise AttributeError
  /\ File_init fs p None = Raise AttributeError.
Proof.
  intros H.
  assert (He : effective_language p None = Raise AttributeError)
    by (rewrite effective_language_suffix, H; reflexivity).
  split; [rewrite H; reflexivity | split; [exact He|]].
  unfold File_init. rewrite He. reflexivity.
Qed.

Lemma File_init_no_suffix_witness :
  suffix (u "Makefile") = []
  /\ File_init (fun _ => Ok [ln "all:"]) (u "Makefile") None
     = Raise AttributeError.
Proof.
  split; [reflexivity|].
  exact (proj2 (proj2 (File_init_no_suffix
                         (fun _ => Ok [ln "all:"]) (u "Makefile") eq_refl))).
Defined.

(** * Further properties *)

(** ** make_lines on arbitrary strings *)

Lemma take_line_no_NL (s : str) : ~ In NL (take_line s).
Proof.
  induction s as [|c s IH]; simpl; [tauto|].
  destruct (N.eqb_spec c NL) as [->|Hc]; simpl; [tauto|].
  intros [H|H]; [congruence | exact (IH H)].
Qed.

Lemma take_line_split (s : str) :
  exists post, line_rest post /\ s = take_line s ++ post.
Proof.
  induction s as [|c s (post & Hp & IH)]; simpl.
  - exists []; split; [left; reflexivity | reflexivity].
  - destruct (N.eqb_spec c NL) as [->|_].
    + exists (NL :: s); split; [right; eexists; reflexivity | reflexivity].
    + exists post; split; [exact Hp | simpl; congruence].
Qed.

Lemma lstrip_split (s : str) : exists ws, all_space ws /\ s = ws ++ lstrip s.
Proof.
  induction s as [|c s (ws & Hw & IH)]; simpl.
  - exists []; split; [constructor | reflexivity].
  - destruct (isspace c) eqn:E.
    + exists (c :: ws); split; [constructor; assumption | simpl; congruence].
    + exists []; split; [constructor | reflexivity].
Qed.

Lemma lstrip_head (s : str) (c : char) (t : str) :
  lstrip s = c :: t -> isspace c = false.
Proof.
  induction s as [|x s IH]; simpl; [discriminate|].
  destruct (isspace x) eqn:E; [exact IH|].
  intros H; inversion H; subst; exact E.
Qed.

Lemma lstrip_take_line_lstrip (s : str) :
  lstrip (take_line (lstrip s)) = take_line (lstrip s).
Proof.
  destruct (lstrip s) as [|c t] eqn:E; [reflexivity|].
  pose proof (lstrip_head _ _ _ E) as Hc. simpl.
  destruct (N.eqb_spec c NL) as [->|_]; [discriminate Hc|].
  simpl. rewrite Hc. reflexivity.
Qed.

Lemma lstrip_idem (s : str) : lstrip (lstrip s) = lstrip s.
Proof.
  induction s as [|c s IH]; simpl; [reflexivity|].
  destruct (isspace c) eqn:E; [exact IH | simpl; rewrite E; reflexivity].
Qed.

Lemma lstrip_all_space (ws x : str) :
  all_space ws -> lstrip (ws ++ x) = lstrip x.
Proof.
  induction 1 as [|c ws Hc _ IH]; simpl; [reflexivity|].
  rewrite Hc. exact IH.
Qed.

Lemma lstrip_marker (language x : str) :
  lstrip (marker language ++ x) = marker language ++ x.
Proof. destruct (marker_cases language) as [[_ ->]|[_ ->]]; reflexivity. Qed.

Lemma take_line_rest (post : str) : line_rest post -> take_line post = [].
Proof. intros [->|[t ->]]; reflexivity. Qed.

Lemma classify_lies_in (language line : str) :
  lies_in language line (classify language line).
Proof.
  unfold classify, lies_in.
  destruct (strip_prefix (marker language) (lstrip line)) as [rest|] eqn:E.
  - destruct (lstrip_split line) as (ws1 & H1 & Hl).
    destruct (lstrip_split rest) as (ws2 & H2 & Hr).
    destruct (take_line_split (lstrip rest)) as (post & Hp & Ht).
    exists post; split; [exact Hp|].
    split; [apply take_line_no_NL|]. exists ws1, ws2.
    split; [exact H1 | split; [exact H2|]].
    rewrite <- Ht. split; [apply lstrip_idem|].
    rewrite Hl at 1. rewrite (strip_prefix_app _ _ _ E).
    rewrite Hr at 1. reflexivity.
  - destruct (take_line_split line) as (post & Hp & Ht).
    exists post; split; [exact Hp|].
    split; [apply take_line_no_NL|]. split; [exact Ht|].
    intros rest H. rewrite H, strip_prefix_self in E. discriminate E.
Qed.

(** The description [lies_in] leaves one line object only. *)
Lemma lies_in_classify (language line : str) (l : Line) :
  lies_in language line l -> l = classify language line.
Proof.
  intros (post & Hp & Hnl & H). unfold classify.
  destruct l as [c|c]; cbn [content] in Hnl.
  - destruct H as (ws1 & ws2 & H1 & H2 & Hs & ->).
    rewrite (lstrip_all_space _ _ H1), lstrip_marker, strip_prefix_self.
    rewrite (lstrip_all_space _ _ H2), Hs.
    rewrite (take_line_app_no_NL _ _ Hnl), (take_line_rest _ Hp), app_nil_r.
    reflexivity.
  - destruct H as [-> Hm].
    destruct (strip_prefix _ _) as [rest|] eqn:E.
    + exfalso. exact (Hm rest (strip_prefix_app _ _ _ E)).
    + rewrite (take_line_app_no_NL _ _ Hnl), (take_line_rest _ Hp), app_nil_r.
      reflexivity.
Qed.

(** X1. Whatever the strings given as raw lines, the content of a line
    that [make_lines] yields holds no newline. *)
Theorem make_lines_content_one_line (raw_lines : list str) (language : str) :
  exists ls,
    make_lines raw_lines language = Ok ls
    /\ Forall (fun l => ~ In NL (content l)) ls.
Proof.
  exists (map (classify language) raw_lines).
  split; [apply make_lines_classify|].
  apply Forall_forall. intros l Hl.
  apply in_map_iff in Hl. destruct Hl as (line & <- & _).
  unfold classify.
  destruct (strip_prefix _ _); apply take_line_no_NL.
Qed.

(** X2. The content of a comment line that [make_lines] yields never
    begins with whitespace: stripping it on the left changes nothing. *)
Theorem make_lines_comment_stripped (raw_lines : list str) (language : str) :
  exists ls,
    make_lines raw_lines language = Ok ls
    /\ Forall (fun l => match l with
                        | CommentLine c => lstrip c = c
                        | CodeLine _ => True
                        end) ls.
Proof.
  exists (map (classify language) raw_lines).
  split; [apply make_lines_classify|].
  apply Forall_forall. intros l Hl.
  apply in_map_iff in Hl. destruct Hl as (line & <- & _).
  unfold classify.
  destruct (strip_prefix _ _); [apply lstrip_take_line_lstrip | exact I].
Qed.

(** X3. [make_lines] yields its lines in the order of the raw lines, one
    for each, and makes up no text.  A raw line that, after its leading
    whitespace, begins with the marker of the language gives a comment
    line, any other a code line.  The content of a code line is the raw
    line up to its first newline (or its end) and holds no newline; the
    content of a comment line holds no newline either, ends at a
    newline or at the end of the raw line, and is preceded there by
    whitespace, the marker and whitespace, nothing else, all the
    whitespace after the marker being left out.  No other list of line
    objects fits this description. *)
Theorem make_lines_content_lies_in (raw_lines : list str) (language : str) :
  exists ls,
    make_lines raw_lines language = Ok ls
    /\ Forall2 (lies_in language) raw_lines ls
    /\ forall ls', Forall2 (lies_in language) raw_lines ls' -> ls' = ls.
Proof.
  exists (map (classify language) raw_lines).
  split; [apply make_lines_classify|]. split.
  - induction raw_lines as [|line rest IH]; simpl; constructor;
      [apply classify_lies_in | exact IH].
  - intros ls' H. induction H as [|line l rest ls' Hl _ IH]; [reflexivity|].
    cbn [map]. rewrite IH, (lies_in_classify _ _ _ Hl). reflexivity.
Qed.

(** ** lines_to_blocks: what the loop computes *)

Section Runs.

Variable language : str.

Lemma bind_Ok {A} (r : result A) : (x <- r ;; Ok x) = r.
Proof. destruct r; reflexivity. Qed.

Lemma lines_to_blocks_cons (line : Line) (ls : list Line) :
  lines_to_blocks (line :: ls) language
  = blocks_loop language (Some (opened_by language line)) ls.
Proof.
  unfold lines_to_blocks. cbn [blocks_loop].
  replace (blocks_step language None line)
    with (Ok (@nil (option Block), Some (opened_by language line)))
    by (destruct line; reflexivity).
  cbn [bind app]. apply bind_Ok.
Qed.

(** From a run, the loop never raises and yields [runs_from]. *)
Lemma blocks_loop_runs_from (ls : list Line) :
  forall b, is_run b ->
  blocks_loop language (Some b) ls = Ok (map Some (runs_from language b ls)).
Proof.
  induction ls as [|line ls IH]; intros b Hb; [reflexivity|].
  cbn [blocks_loop runs_from]. rewrite (blocks_step_run language _ _ Hb).
  destruct (kind_eqb (line_kind line) (block_kind b)) eqn:E; cbn [bind].
  - apply kind_eqb_eq in E.
    rewrite (IH _ (is_run_add_line _ _ Hb E)). reflexivity.
  - rewrite (IH _ (proj1 (opened_by_run language line))). reflexivity.
Qed.

Lemma lines_to_blocks_runs_from (line : Line) (ls : list Line) :
  lines_to_blocks (line :: ls) language
  = Ok (map Some (runs_from language (opened_by language line) ls)).
Proof.
  rewrite lines_to_blocks_cons.
  apply blocks_loop_runs_from, opened_by_run.
Qed.

Lemma tagged_add_line (b : Block) (l : Line) :
  tagged language b -> tagged language (add_line b l).
Proof. destruct b; simpl; auto. Qed.

Lemma tagged_opened_by (l : Line) : tagged language (opened_by language l).
Proof. destruct l; simpl; auto. Qed.

Lemma runs_from_tagged (ls : list Line) :
  forall b, tagged language b -> Forall (tagged language) (runs_from language b ls).
Proof.
  induction ls as [|l ls IH]; intros b Hb; cbn [runs_from].
  - constructor; [exact Hb | constructor].
  - destruct (kind_eqb _ _).
    + apply IH, tagged_add_line, Hb.
    + constructor; [exact Hb | apply IH, tagged_opened_by].
Qed.


(** Lines of the kind of the current block only extend it. *)
Lemma runs_from_extend (ls rest : list Line) :
  forall b,
    Forall (fun l => line_kind l = block_kind b) ls ->
    runs_from language b (ls ++ rest)
    = runs_from language (fold_left add_line ls b) rest.
Proof.
  induction ls as [|l ls IH]; intros b Hall; [reflexivity|].
  inversion Hall as [|? ? Hl Hls]; subst.
  cbn [app runs_from fold_left].
  rewrite Hl, kind_eqb_refl.
  apply IH. rewrite block_kind_add_line. exact Hls.
Qed.

Lemma fold_add_line (ls : list Line) (b : Block) :
  fold_left add_line ls b
  = match b with
    | PlainBlock xs => PlainBlock (xs ++ ls)
    | CodeBlock lang xs => CodeBlock lang (xs ++ ls)
    end.
Proof.
  revert b; induction ls as [|l ls IH]; intros b; cbn [fold_left].
  - destruct b; rewrite app_nil_r; reflexivity.
  - rewrite IH. destruct b; cbn [add_line]; rewrite <- app_assoc; reflexivity.
Qed.

(** A run is the block that its first line opens, extended by its
    other lines. *)
Lemma run_rebuilt (b : Block) (l : Line) (ls : list Line) :
  tagged language b -> lines b = l :: ls -> line_kind l = block_kind b ->
  fold_left add_line ls (opened_by language l) = b.
Proof.
  intros Ht Hl Hk. rewrite fold_add_line.
  destruct b as [xs|lang xs], l; simpl in *; try discriminate;
    subst; reflexivity.
Qed.

Lemma runs_from_flatten (bs : list Block) :
  forall b,
    Forall is_run bs -> Forall (tagged language) bs ->
    adjacent_differ (b :: bs) ->
    runs_from language b (flat_map lines bs) = b :: bs.
Proof.
  induction bs as [|b' bs IH]; intros b Hruns Htags Hadj; [reflexivity|].
  inversion Hruns as [|? ? [Hne Hall] Hruns']; subst.
  inversion Htags as [|? ? Ht Htags']; subst.
  destruct Hadj as [Hd Hadj].
  cbn [flat_map].
  destruct (lines b') as [|l ls] eqn:El; [congruence|].
  inversion Hall as [|? ? Hl Hls]; subst.
  cbn [app runs_from].
  destruct (kind_eqb (line_kind l) (block_kind b)) eqn:E.
  - apply kind_eqb_eq in E. congruence.
  - f_equal. rewrite runs_from_extend.
    + rewrite (run_rebuilt b' l ls Ht El Hl). apply IH; assumption.
    + rewrite (proj1 (proj2 (opened_by_run language l))), Hl. exact Hls.
Qed.

(** Cut between two lines of different kinds, the lines are grouped
    piece by piece. *)
Lemma runs_from_cut (a : list Line) (x y : Line) (c : list Line) :
  line_kind x <> line_kind y ->
  forall b,
    runs_from language b ((a ++ [x]) ++ y :: c)
    = runs_from language b (a ++ [x])
      ++ runs_from language (opened_by language y) c.
Proof.
  intros Hxy.
  assert (Hyx : forall k, k = line_kind x -> kind_eqb (line_kind y) k = false).
  { intros k ->. destruct (kind_eqb _ _) eqn:E; [|reflexivity].
    apply kind_eqb_eq in E. congruence. }
  induction a as [|l a IH]; intros b; cbn [app runs_from].
  - destruct (kind_eqb (line_kind x) (block_kind b)) eqn:E; cbn [runs_from app].
    + apply kind_eqb_eq in E.
      rewrite Hyx by (rewrite block_kind_add_line; congruence). reflexivity.
    + rewrite Hyx by (apply (opened_by_run language x)). reflexivity.
  - destruct (kind_eqb (line_kind l) (block_kind b)).
    + apply IH.
    + cbn [app]. f_equal. apply IH.
Qed.

End Runs.

(** X4. Every code block that [lines_to_blocks] yields carries the
    language tag it was called with. *)
Theorem lines_to_blocks_language (ls : list Line) (language : str) :
  exists items,
    lines_to_blocks ls language = Ok items
    /\ Forall (tagged language) (yielded_blocks items).
Proof.
  destruct ls as [|line ls].
  - exists [None]. split; [reflexivity | constructor].
  - eexists. split; [apply lines_to_blocks_runs_from|].
    rewrite yielded_blocks_Some.
    apply runs_from_tagged, tagged_opened_by.
Qed.


(** X6. Grouping undoes flattening: for blocks that are runs, that
    differ in kind from their neighbours and whose code blocks carry
    the language, [lines_to_blocks] on their lines put end to end
    yields these very blocks. *)
Theorem lines_to_blocks_flatten (bs : list Block) (language : str) :
  bs <> [] ->
  Forall is_run bs ->
  Forall (tagged language) bs ->
  adjacent_differ bs ->
  lines_to_blocks (flat_map lines bs) language = Ok (map Some bs).
Proof.
  intros Hne Hruns Htags Hadj.
  destruct bs as [|b bs]; [congruence|].
  inversion Hruns as [|? ? [Hb Hall] Hruns']; subst.
  inversion Htags as [|? ? Ht Htags']; subst.
  cbn [flat_map].
  destruct (lines b) as [|l ls] eqn:El; [congruence|].
  inversion Hall as [|? ? Hl Hls]; subst.
  cbn [app]. rewrite lines_to_blocks_runs_from, runs_from_extend.
  - rewrite (run_rebuilt language b l ls Ht El Hl).
    rewrite runs_from_flatten by assumption. reflexivity.
  - rewrite (proj1 (proj2 (opened_by_run language l))), Hl. exact Hls.
Qed.

Lemma lines_to_blocks_flatten_witness :
  lines_to_blocks
    [CommentLine (u "intro"); CodeLine (u "fn f() {}"); CodeLine (u "}")]
    (u "rs")
  = Ok [Some (PlainBlock [CommentLine (u "intro")]);
        Some (CodeBlock (u "rs") [CodeLine (u "fn f() {}"); CodeLine (u "}")])].
Proof.
  refine (lines_to_blocks_flatten
            [PlainBlock [CommentLine (u "intro")];
             CodeBlock (u "rs") [CodeLine (u "fn f() {}"); CodeLine (u "}")]]
            (u "rs") _ _ _ _).
  - discriminate.
  - repeat constructor; discriminate.
  - repeat constructor.
  - simpl. split; [discriminate | exact I].
Defined.

(** X7. Cut between two lines of different kinds, a sequence of lines
    is grouped piece by piece: the items of the whole are those of the
    first piece followed by those of the second. *)
Theorem lines_to_blocks_cut (a : list Line) (x y : Line) (c : list Line)
        (language : str) :
  same_type x y = false ->
  exists items1 items2,
    lines_to_blocks (a ++ [x]) language = Ok items1
    /\ lines_to_blocks (y :: c) language = Ok items2
    /\ lines_to_blocks ((a ++ [x]) ++ y :: c) language = Ok (items1 ++ items2).
Proof.
  intros Hxy.
  assert (Hk : line_kind x <> line_kind y).
  { intros H. apply same_type_kind in H. congruence. }
  destruct a as [|l a]; cbn [app]; rewrite !lines_to_blocks_runs_from;
    do 2 eexists; (split; [reflexivity | split; [reflexivity|]]);
    rewrite <- map_app; do 2 f_equal.
  - cbn [runs_from app].
    destruct (kind_eqb (line_kind y) (block_kind (opened_by language x)))
      eqn:E; [|reflexivity].
    apply kind_eqb_eq in E.
    rewrite (proj1 (proj2 (opened_by_run language x))) in E. congruence.
  - exact (runs_from_cut language a x y c Hk (opened_by language l)).
Qed.

Lemma lines_to_blocks_cut_witness :
  exists items1 items2,
    lines_to_blocks ([CodeLine (u "a")] ++ [CodeLine (u "b")]) (u "py")
    = Ok items1
    /\ lines_to_blocks [CommentLine (u "c"); CodeLine (u "d")] (u "py")
       = Ok items2
    /\ lines_to_blocks
         (([CodeLine (u "a")] ++ [CodeLine (u "b")])
          ++ [CommentLine (u "c"); CodeLine (u "d")]) (u "py")
       = Ok (items1 ++ items2).
Proof.
  exact (lines_to_blocks_cut [CodeLine (u "a")] (CodeLine (u "b"))
           (CommentLine (u "c")) [CodeLine (u "d")] (u "py") eq_refl).
Defined.

(** ** File: outcome and content *)

Section FileProps.

Variable fs : Path -> result (list str).

Lemma File_items_Ok (raw : list str) (language : str) :
  exists ls items,
    make_lines raw language = Ok ls
    /\ File_items raw language = Ok items
    /\ flat_map lines (yielded_blocks items) = ls
    /\ Forall (tagged language) (yielded_blocks items)
    /\ List.length ls = List.length raw.
Proof.
  exists (map (classify language) raw).
  unfold File_items. rewrite make_lines_classify. cbn [bind].
  destruct (lines_to_blocks_runs language (map (classify language) raw))
    as [[Hnil H]|(bs & Hne & H & Hcat & _)].
  - exists [None]. rewrite Hnil in *.
    repeat (split; [reflexivity || assumption || constructor|]).
    destruct raw; [reflexivity | discriminate Hnil].
  - exists (map Some bs). rewrite yielded_blocks_Some.
    split; [reflexivity | split; [exact H | split; [exact Hcat|]]].
    split; [|apply length_map].
    destruct (map (classify language) raw) as [|line ls]; [congruence|].
    rewrite lines_to_blocks_runs_from in H.
    inversion H as [Heq].
    apply (f_equal yielded_blocks) in Heq.
    rewrite !yielded_blocks_Some in Heq. rewrite <- Heq.
    apply runs_from_tagged, tagged_opened_by.
Qed.

Lemma effective_language_cases (p : Path) (language : option str) :
  (language = None /\ suffix p = []
   /\ effective_language p language = Raise AttributeError)
  \/ ((language <> None \/ suffix p <> [])
      /\ exists lang, effective_language p language = Ok lang).
Proof.
  destruct language as [l|].
  - right. split; [left; discriminate | exists l; reflexivity].
  - rewrite effective_language_suffix.
    destruct (suffix p) as [|c t].
    + left. repeat split.
    + right. split; [right; discriminate | eexists; reflexivity].
Qed.

Lemma File_init_Ok (p : Path) (language : option str) (lang : str)
      (raw : list str) :
  effective_language p language = Ok lang -> fs p = Ok raw ->
  exists items,
    File_items raw lang = Ok items
    /\ File_init fs p language = Ok {| path := p; blocks := items |}.
Proof.
  intros El Hfs.
  destruct (File_items_Ok raw lang) as (ls & items & _ & Hi & _).
  exists items. split; [exact Hi|].
  unfold File_init. rewrite El. cbn [bind]. rewrite Hfs. cbn [bind].
  rewrite Hi. reflexivity.
Qed.

End FileProps.

(** X8. What a [File] holds: [make_lines] gives one line object for
    each raw line, [lines_to_blocks] takes them without an exception,
    and the lines of the blocks, block after block, are these line
    objects. *)
Theorem File_items_lines (raw : list str) (language : str) :
  exists ls items,
    make_lines raw language = Ok ls
    /\ File_items raw language = Ok items
    /\ flat_map lines (yielded_blocks items) = ls
    /\ List.length ls = List.length raw.
Proof.
  destruct (File_items_Ok raw language) as (ls & items & H1 & H2 & H3 & _ & H4).
  exists ls, items. auto.
Qed.

(** X9. The outcome of [File(path, language)].  It succeeds exactly
    when a language is given or the path has a suffix, and the file can
    be read.  It raises [AttributeError] exactly when no language is
    given and the path has no suffix, whether the file can be read or
    not; any other exception is the one of reading the file. *)
Theorem File_init_outcome (fs : Path -> result (list str)) (p : Path)
        (language : option str) :
  ((exists f, File_init fs p language = Ok f)
   <-> (language <> None \/ suffix p <> []) /\ exists raw, fs p = Ok raw)
  /\ (forall e,
        File_init fs p language = Raise e
        <-> (language = None /\ suffix p = [] /\ e = AttributeError)
            \/ ((language <> None \/ suffix p <> []) /\ fs p = Raise e)).
Proof.
  destruct (effective_language_cases p language)
    as [(Hl & Hs & He)|(Hls & lang & He)].
  - assert (Hinit : File_init fs p language = Raise AttributeError)
      by (unfold File_init; rewrite He; reflexivity).
    split; [split|intros e; split].
    + intros [f Hf]. congruence.
    + intros [[H|H] _]; contradiction.
    + intros H. left. repeat split; congruence.
    + intros [(_ & _ & ->)|([H|H] & _)]; [exact Hinit | contradiction ..].
  - destruct (fs p) as [raw|e0] eqn:Hfs.
    + destruct (File_init_Ok fs p language lang raw He Hfs) as (items & _ & Hi).
      split; [split|intros e; split].
      * intros _. split; [exact Hls | exists raw; reflexivity].
      * intros _. eexists; exact Hi.
      * intros H. congruence.
      * intros [(Hl & Hs & _)|(_ & H)]; [|discriminate H].
        destruct Hls; contradiction.
    + assert (Hinit : File_init fs p language = Raise e0)
        by (unfold File_init; rewrite He; cbn [bind]; rewrite Hfs; reflexivity).
      split; [split|intros e; split].
      * intros [f Hf]. congruence.
      * intros (_ & raw & H). discriminate H.
      * intros H. right. split; [exact Hls | congruence].
      * intros [(Hl & Hs & _)|(_ & H)]; [destruct Hls; contradiction|].
        congruence.
Qed.

(** X10. A file without any line: the [File] holds the single item
    [None], and its text is the heading followed by the word [None]. *)
Theorem File_empty_content (fs : Path -> result (list str)) (p : Path)
        (language : option str) (lang : str) :
  fs p = Ok [] ->
  effective_language p language = Ok lang ->
  File_init fs p language = Ok {| path := p; blocks := [None] |}
  /\ File_str {| path := p; blocks := [None] |}
     = (u "### " ++ p ++ [NL; NL]) ++ u "None".
Proof.
  intros Hfs El. split; [|reflexivity].
  unfold File_init. rewrite El. cbn [bind]. rewrite Hfs. reflexivity.
Qed.

Lemma File_empty_content_witness :
  File_init (fun _ => Ok []) (u "amp/Cargo.toml") None
  = Ok {| path := u "amp/Cargo.toml"; blocks := [None] |}
  /\ File_str {| path := u "amp/Cargo.toml"; blocks := [None] |}
     = (u "### " ++ u "amp/Cargo.toml" ++ [NL; NL]) ++ u "None".
Proof.
  exact (File_empty_content (fun _ => Ok []) (u "amp/Cargo.toml") None
           (u "toml") eq_refl eq_refl).
Defined.

(** X11. The fences of a [File] name its language: every code block it
    holds carries the language the [File] worked with, the one given or
    the one read off the suffix. *)
Theorem File_blocks_language (fs : Path -> result (list str)) (p : Path)
        (language : option str) (f : File) :
  File_init fs p language = Ok f ->
  path f = p
  /\ exists lang,
      effective_language p language = Ok lang
      /\ Forall (tagged lang) (yielded_blocks (blocks f)).
Proof.
  intros Hinit. unfold File_init in Hinit.
  destruct (effective_language p language) as [lang|e] eqn:El;
    [|discriminate Hinit].
  cbn [bind] in Hinit.
  destruct (fs p) as [raw|e]; [|discriminate Hinit].
  cbn [bind] in Hinit.
  destruct (File_items_Ok raw lang) as (ls & items & _ & Hi & _ & Ht & _).
  rewrite Hi in Hinit. cbn [bind] in Hinit. inversion Hinit; subst f.
  split; [reflexivity|]. exists lang. split; [reflexivity | exact Ht].
Qed.

Lemma File_blocks_language_witness :
  exists lang,
    effective_language (u "amp/src/lib.rs") None = Ok lang
    /\ Forall (tagged lang)
         (yielded_blocks [Some (CodeBlock (u "rs") [CodeLine (u "fn f() {}")])]).
Proof.
  exact (proj2 (File_blocks_language
                  (fun _ => Ok [ln "fn f() {}"]) (u "amp/src/lib.rs") None
                  {| path := u "amp/src/lib.rs";
                     blocks := [Some (CodeBlock (u "rs")
                                        [CodeLine (u "fn f() {}")])] |}
                  eq_refl)).
Defined.

(** ** A file of code only *)

Lemma join_concat (parts : list str) :
  parts <> [] ->
  join [NL] parts ++ [NL] = List.concat (map (fun b => b ++ [NL]) parts).
Proof.
  induction parts as [|p parts IH]; [congruence | intros _].
  destruct parts as [|q parts].
  - cbn [join map List.concat]. rewrite app_nil_r. reflexivity.
  - rewrite join_cons by discriminate.
    change (List.concat (map (fun b => b ++ [NL]) (p :: q :: parts)))
      with ((p ++ [NL])
            ++ List.concat (map (fun b => b ++ [NL]) (q :: parts))).
    rewrite <- IH by discriminate.
    rewrite <- !app_assoc. reflexivity.
Qed.

Lemma lines_to_blocks_all_code (b : str) (bs : list str) (language : str) :
  lines_to_blocks (map CodeLine (b :: bs)) language
  = Ok [Some (CodeBlock language (map CodeLine (b :: bs)))].
Proof.
  cbn [map]. rewrite lines_to_blocks_runs_from.
  rewrite <- (app_nil_r (map CodeLine bs)) at 1.
  rewrite runs_from_extend.
  - rewrite fold_add_line. reflexivity.
  - apply Forall_forall. intros l Hl.
    apply in_map_iff in Hl. destruct Hl as (x & <- & _). reflexivity.
Qed.

Lemma classify_code_lines (language : str) (bodies : list str) :
  Forall (fun b => ~ In NL b
                   /\ strip_prefix (marker language) (lstrip b) = None)
         bodies ->
  map (classify language) (map (fun b => b ++ [NL]) bodies)
  = map CodeLine bodies.
Proof.
  induction 1 as [|b bodies [Hnl Hm] _ IH]; [reflexivity|].
  cbn [map]. rewrite IH. f_equal.
  change (b ++ [NL]) with (raw_line b true).
  rewrite classify_raw by exact Hnl. rewrite Hm. reflexivity.
Qed.

(** X12. A file of code only goes through untouched.  When every raw
    line ends with its newline and none is a comment of the language,
    the text of the [File] is the heading, a newline, the opening fence
    with the language, the text of the file as it is, and the closing
    fence. *)
Theorem File_str_code_only (fs : Path -> result (list str)) (p : Path)
        (language : option str) (lang : str) (bodies : list str) :
  bodies <> [] ->
  Forall (fun b => ~ In NL b
                   /\ strip_prefix (marker lang) (lstrip b) = None) bodies ->
  fs p = Ok (map (fun b => b ++ [NL]) bodies) ->
  effective_language p language = Ok lang ->
  exists f,
    File_init fs p language = Ok f
    /\ File_str f
       = (u "### " ++ p ++ [NL; NL])
         ++ ([NL] ++ u "```" ++ lang ++ [NL])
         ++ List.concat (map (fun b => b ++ [NL]) bodies)
         ++ (u "```" ++ [NL]).
Proof.
  intros Hne Hcode Hfs El.
  destruct bodies as [|b bs]; [congruence|].
  exists {| path := p;
            blocks := [Some (CodeBlock lang (map CodeLine (b :: bs)))] |}.
  split.
  - unfold File_init. rewrite El. cbn [bind]. rewrite Hfs. cbn [bind].
    unfold File_items. rewrite make_lines_classify. cbn [bind].
    rewrite (classify_code_lines lang _ Hcode).
    rewrite lines_to_blocks_all_code. reflexivity.
  - rewrite <- join_concat by discriminate.
    unfold File_str, render_items.
    cbn [path blocks str_of_item Block_str].
    change (map str_of_item [Some (CodeBlock lang (map CodeLine (b :: bs)))])
      with [Block_str (CodeBlock lang (map CodeLine (b :: bs)))].
    cbn [join Block_str].
    rewrite map_map. cbn [content]. rewrite map_id.
    rewrite <- !app_assoc. reflexivity.
Qed.

Lemma File_str_code_only_witness :
  exists f,
    File_init (fun _ => Ok [ln "fn main() {"; ln "}"]) (u "src/lib.rs") None
    = Ok f
    /\ File_str f
       = (u "### " ++ u "src/lib.rs" ++ [NL; NL])
         ++ ([NL] ++ u "```" ++ u "rs" ++ [NL])
         ++ List.concat [ln "fn main() {"; ln "}"]
         ++ (u "```" ++ [NL]).
Proof.
  refine (File_str_code_only (fun _ => Ok [ln "fn main() {"; ln "}"])
            (u "src/lib.rs") None (u "rs") [u "fn main() {"; u "}"]
            _ _ eq_refl eq_refl).
  - discriminate.
  - repeat constructor; try reflexivity;
      intros H; vm_compute in H; intuition discriminate.
Defined.

(** ** Chapter *)

Section ChapterProps.

Variable fs : Path -> result (list str).
Variable mkPath : str -> Path.

Lemma Chapter_loop_Ok (paths : list str) :
  forall acc fl,
    Chapter_loop fs mkPath acc paths = Ok fl
    <-> exists new, fl = acc ++ new /\ Forall2 (built fs mkPath) paths new.
Proof.
  induction paths as [|p paths IH]; intros acc fl; cbn [Chapter_loop].
  - split.
    + intros H; inversion H; subst. exists []. rewrite app_nil_r.
      split; [reflexivity | constructor].
    + intros (new & -> & H). inversion H. rewrite app_nil_r. reflexivity.
  - destruct (File_init fs (mkPath p) None) as [f|e] eqn:Ef; cbn [bind].
    + rewrite IH. split.
      * intros (new & -> & H). exists (f :: new).
        rewrite <- app_assoc. split; [reflexivity|].
        constructor; [exact Ef | exact H].
      * intros (new & -> & H). inversion H as [|? f' ? new' Hf Hrest]; subst.
        unfold built in Hf. rewrite Ef in Hf. inversion Hf; subst f'.
        exists new'. rewrite <- app_assoc. split; [reflexivity | exact Hrest].
    + split; [discriminate|].
      intros (new & _ & H). inversion H as [|? f' ? ? Hf]; subst.
      unfold built in Hf. congruence.
Qed.

Lemma Chapter_loop_Raise (paths : list str) (e : exn) :
  forall acc,
    Chapter_loop fs mkPath acc paths = Raise e
    <-> exists pre p post,
        paths = pre ++ p :: post
        /\ Forall (fun q => exists f, built fs mkPath q f) pre
        /\ File_init fs (mkPath p) None = Raise e.
Proof.
  induction paths as [|q paths IH]; intros acc; cbn [Chapter_loop].
  - split; [discriminate|].
    intros (pre & p & post & H & _). destruct pre; discriminate H.
  - destruct (File_init fs (mkPath q) None) as [f|e0] eqn:Ef; cbn [bind].
    + rewrite IH. split.
      * intros (pre & p & post & -> & Hpre & Hp).
        exists (q :: pre), p, post. split; [reflexivity|].
        split; [constructor; [exists f; exact Ef | exact Hpre] | exact Hp].
      * intros (pre & p & post & Heq & Hpre & Hp).
        destruct pre as [|q' pre]; cbn [app] in Heq; inversion Heq; subst.
        -- congruence.
        -- inversion Hpre; subst. exists pre, p, post. auto.
    + split.
      * intros H; inversion H; subst e0.
        exists [], q, paths. split; [reflexivity|].
        split; [constructor | exact Ef].
      * intros (pre & p & post & Heq & Hpre & Hp).
        destruct pre as [|q' pre]; cbn [app] in Heq; inversion Heq; subst.
        -- congruence.
        -- inversion Hpre as [|? ? [f Hf]]; subst.
           unfold built in Hf. congruence.
Qed.

Lemma built_path (p : str) (f : File) :
  built fs mkPath p f -> path f = mkPath p.
Proof.
  unfold built, File_init. intros H.
  destruct (effective_language _ _); [|discriminate H]. cbn [bind] in H.
  destruct (fs _); [|discriminate H]. cbn [bind] in H.
  destruct (File_items _ _); [|discriminate H]. cbn [bind] in H.
  inversion H. reflexivity.
Qed.

End ChapterProps.

(** X13. [Chapter(intro_path, paths)] succeeds exactly when the
    introduction can be read and the [File] of every path can be built,
    and the chapter is then made of the text of the introduction, its
    lines put end to end, and of these files, one for each path, in the
    order of the paths. *)
Theorem Chapter_init_Ok (fs : Path -> result (list str))
        (mkPath : str -> Path) (intro_path : str) (paths : list str)
        (c : Chapter) :
  Chapter_init fs mkPath intro_path paths = Ok c
  <-> exists intro_lines,
      fs intro_path = Ok intro_lines
      /\ intro c = List.concat intro_lines
      /\ Forall2 (built fs mkPath) paths (files c).
Proof.
  unfold Chapter_init. split.
  - destruct (fs intro_path) as [il|e]; [|discriminate]. cbn [bind].
    destruct (Chapter_loop fs mkPath [] paths) as [fl|e] eqn:El;
      [|discriminate].
    cbn [bind]. intros H; inversion H; subst c. cbn [intro files].
    apply Chapter_loop_Ok in El. destruct El as (new & -> & Hnew).
    exists il. auto.
  - intros (il & -> & Hi & Hf). cbn [bind].
    assert (El : Chapter_loop fs mkPath [] paths = Ok (files c))
      by (apply Chapter_loop_Ok; exists (files c); auto).
    rewrite El. cbn [bind]. destruct c as [i fl]; cbn [intro] in Hi.
    rewrite Hi. reflexivity.
Qed.

(** X14. The exception of [Chapter(intro_path, paths)].  It is the one
    of reading the introduction, if that fails, whatever the paths;
    else it is the one of the first path whose [File] cannot be built,
    the files of the paths before it having been built. *)
Theorem Chapter_init_Raise (fs : Path -> result (list str))
        (mkPath : str -> Path) (intro_path : str) (paths : list str)
        (e : exn) :
  Chapter_init fs mkPath intro_path paths = Raise e
  <-> fs intro_path = Raise e
      \/ ((exists intro_lines, fs intro_path = Ok intro_lines)
          /\ exists pre p post,
              paths = pre ++ p :: post
              /\ Forall (fun q => exists f, built fs mkPath q f) pre
              /\ File_init fs (mkPath p) None = Raise e).
Proof.
  unfold Chapter_init.
  destruct (fs intro_path) as [il|e0]; cbn [bind].
  - destruct (Chapter_loop fs mkPath [] paths) as [fl|e1] eqn:El; cbn [bind].
    + split; [discriminate|].
      intros [H|(_ & H)]; [discriminate H|].
      apply (Chapter_loop_Raise fs mkPath paths e []) in H. congruence.
    + split.
      * intros H; inversion H; subst e1. right.
        split; [exists il; reflexivity|].
        apply (Chapter_loop_Raise fs mkPath paths e []). exact El.
      * intros [H|(_ & H)]; [discriminate H|].
        apply (Chapter_loop_Raise fs mkPath paths e []) in H. congruence.
  - split.
    + intros H; left; congruence.
    + intros [H|([il H] & _)]; [congruence | discriminate H].
Qed.

(** X15. The text of a chapter that was built: the introduction as it
    is in its file, a newline, and then one text for each path, in the
    order of the paths and joined by newlines, each beginning with the
    heading of its path.  Without any path, the text is the
    introduction and a newline. *)
Theorem Chapter_str_sections (fs : Path -> result (list str))
        (mkPath : str -> Path) (intro_path : str) (paths : list str)
        (c : Chapter) :
  Chapter_init fs mkPath intro_path paths = Ok c ->
  exists intro_lines texts,
    fs intro_path = Ok intro_lines
    /\ Chapter_str c = List.concat intro_lines ++ [NL] ++ join [NL] texts
    /\ Forall2 (fun p t => exists rest,
                   t = (u "### " ++ mkPath p ++ [NL; NL]) ++ rest)
               paths texts.
Proof.
  unfold Chapter_init.
  destruct (fs intro_path) as [il|e]; [|discriminate]. cbn [bind].
  destruct (Chapter_loop fs mkPath [] paths) as [fl|e] eqn:El;
    [|discriminate].
  cbn [bind]. intros H; inversion H; subst c.
  apply Chapter_loop_Ok in El. destruct El as (new & -> & Hnew).
  exists il, (map File_str new).
  split; [reflexivity | split; [reflexivity|]].
  cbn [app] in *. clear H.
  induction Hnew as [|p f paths new Hf _ IH]; cbn [map]; constructor;
    [|exact IH].
  exists (render_items (blocks f)).
  unfold File_str. rewrite (built_path fs mkPath p f Hf). reflexivity.
Qed.

Lemma Chapter_str_sections_witness :
  exists intro_lines texts,
    (fun _ => Ok [ln "x"]) (u "intro.md") = Ok intro_lines
    /\ Chapter_str
         {| intro := ln "x";
            files := [{| path := u "a.rs";
                         blocks := [Some (CodeBlock (u "rs")
                                            [CodeLine (u "x")])] |}] |}
       = List.concat intro_lines ++ [NL] ++ join [NL] texts
    /\ Forall2 (fun p t => exists rest,
                   t = (u "### " ++ p ++ [NL; NL]) ++ rest)
               [u "a.rs"] texts.
Proof.
  exact (Chapter_str_sections (fun _ => Ok [ln "x"]) (fun p => p)
           (u "intro.md") [u "a.rs"]
           {| intro := ln "x";
              files := [{| path := u "a.rs";
                           blocks := [Some (CodeBlock (u "rs")
                                              [CodeLine (u "x")])] |}] |}
           eq_refl).
Defined.

(** ** The language read off a path *)

Lemma rfind_None (c : char) (s : str) : rfind c s = None -> ~ In c s.
Proof.
  induction s as [|x s IH]; simpl; [tauto|].
  destruct (rfind c s); [discriminate|].
  destruct (N.eqb_spec x c) as [->|Hx]; [discriminate|].
  intros _ [H|H]; [contradiction | exact (IH eq_refl H)].
Qed.

(** The occurrence that [rfind] finds is the last one. *)
Lemma rfind_last (c : char) (s : str) (i : nat) :
  rfind c s = Some i -> ~ In c (skipn (S i) s).
Proof.
  revert i; induction s as [|x s IH]; intros i; simpl; [discriminate|].
  destruct (rfind c s) as [j|] eqn:E.
  - intros H; inversion H; subst. exact (IH _ eq_refl).
  - destruct (N.eqb_spec x c) as [->|_]; [|discriminate].
    intros H; inversion H; subst. simpl. apply rfind_None; exact E.
Qed.

Lemma In_skipn_In {A} (x : A) (n : nat) (l : list A) :
  In x (skipn n l) -> In x l.
Proof.
  intros H. rewrite <- (firstn_skipn n l). apply in_or_app; right; exact H.
Qed.

Lemma take_line_incl (c : char) (s : str) : In c (take_line s) -> In c s.
Proof.
  induction s as [|x s IH]; simpl; [tauto|].
  destruct (N.eqb x NL); simpl; [tauto|]. intros [H|H]; auto.
Qed.

Lemma name_no_slash (p : Path) : ~ In 47 (name p).
Proof.
  unfold name. destruct (rfind 47 p) as [i|] eqn:E.
  - apply rfind_last; exact E.
  - apply rfind_None; exact E.
Qed.

(** After its dot a suffix holds neither dot nor slash. *)
Lemma suffix_tail_clean (p : Path) :
  ~ In 46 (tl (suffix p)) /\ ~ In 47 (tl (suffix p)).
Proof.
  unfold suffix. destruct (rfind 46 (name p)) as [i|] eqn:E;
    [|split; simpl; tauto].
  destruct (_ && _); [|split; simpl; tauto].
  assert (Ht : tl (skipn i (name p)) = skipn (S i) (name p)).
  { clear E. revert i. induction (name p) as [|x n IH]; intros [|i];
      try reflexivity. cbn [skipn]. apply IH. }
  rewrite Ht. split.
  - apply rfind_last; exact E.
  - intros H. apply (name_no_slash p). exact (In_skipn_In _ _ _ H).
Qed.

(** X16. The language that [File] reads off a path, when none is
    given, holds no newline, no dot and no slash; so the line of the
    opening fence that carries it is a single line. *)
Theorem derived_language_clean (p : Path) (lang : str) :
  effective_language p None = Ok lang ->
  ~ In NL lang /\ ~ In 46 lang /\ ~ In 47 lang.
Proof.
  rewrite effective_language_suffix.
  destruct (suffix_tail_clean p) as [Hdot Hslash].
  destruct (suffix p) as [|c t]; [discriminate|].
  intros H; inversion H; subst lang. cbn [tl] in *.
  split; [apply take_line_no_NL|].
  split; intros Hin; [apply Hdot | apply Hslash]; apply take_line_incl, Hin.
Qed.

Lemma derived_language_clean_witness :
  ~ In NL (u "toml") /\ ~ In 46 (u "toml") /\ ~ In 47 (u "toml").
Proof.
  exact (derived_language_clean (u "amp/Cargo.toml") (u "toml") eq_refl).
Defined.
